(** * Network telemetry pipeline: collector (networkws.py) and analyzer (service.py)

    A shallow embedding of the two Python programs of the repository and the
    properties of their specification.

    Part I holds the programs:
    - [Py]: the few Python built-ins the code relies on (string slicing,
      indexing, [startswith], decimal printing of integers).
    - [Ipaddr]: the interface of the standard [ipaddress] module used by
      [ConnectionTracker.is_local_address], and an IPv4 instance of it.
    - [NetworkWS]: [ConnectionTracker] of networkws.py.
    - [Service]: [NetworkAnalyzer.calculate_anomaly_score] and the
      [WebSocketServer] of service.py.

    Part II holds their properties, in [PyFacts], [NetworkWSFacts] and
    [ServiceFacts].

    Conventions.  Python dictionaries are [gmap]s and Python sets are
    [gset]s.  An exception is an explicit result: [None] where the code
    catches it on the spot, a constructor [Raised] where it leaves the
    function.  What a call reads from outside the program (the connection
    table, the process table, the clock, the state of the websockets) is an
    argument of its model.  A Python [float] is the rational number it
    denotes and float arithmetic is exact; [normalize_rounded] and
    [ServiceFacts.normalize_rounded_bounds] redo the normalization with
    every operation rounded. *)

From Stdlib Require Import ZArith QArith Qminmax Qround Lia Lqa Ascii String.
From stdpp Require Import base decidable option list sorting strings pretty gmap.

Local Open Scope string_scope.
Local Open Scope Z_scope.

(* ===================================================================== *)
(** * Part I: the programs *)
(* ===================================================================== *)

(* ===================================================================== *)
(** ** Python built-ins *)
(* ===================================================================== *)

Module Py.

(** [str(n)] and [f"{n}"] for an [int]. *)
Definition str_of_int (n : Z) : string := pretty n.

(** [s[0]]: the one-character string at index 0; [None] is [IndexError]. *)
Definition index0 (s : string) : option string :=
  match s with
  | EmptyString => None
  | String a _ => Some (String a EmptyString)
  end.

(** [s[:n]]. *)
Fixpoint slice_to (n : nat) (s : string) : string :=
  match n, s with
  | O, _ => EmptyString
  | S _, EmptyString => EmptyString
  | S n', String a s' => String a (slice_to n' s')
  end.

(** [s.startswith(p)]. *)
Fixpoint startswith (p s : string) : bool :=
  match p, s with
  | EmptyString, _ => true
  | String _ _, EmptyString => false
  | String a p', String b s' =>
      if Ascii.eqb a b then startswith p' s' else false
  end.

(** [s.split(sep)] for a one-character separator. *)
Fixpoint split_on (sep : ascii) (s : string) : list string :=
  match s with
  | EmptyString => [EmptyString]
  | String a s' =>
      if Ascii.eqb a sep then EmptyString :: split_on sep s'
      else match split_on sep s' with
           | [] => [String a EmptyString]
           | w :: ws => String a w :: ws
           end
  end.

(** [sep.join(l)]. *)
Fixpoint join (sep : string) (l : list string) : string :=
  match l with
  | [] => EmptyString
  | [w] => w
  | w :: ws => w +:+ sep +:+ join sep ws
  end.

End Py.

(* ===================================================================== *)
(** ** The [ipaddress] module *)
(* ===================================================================== *)

Module Ipaddr.

(** What [is_local_address] uses of the standard library: the constructor
    [ipaddress.ip_address] ([None] stands for [ValueError]), the two
    properties [is_private] and [is_loopback], and [str]. *)
Class Lib := {
  ip_obj : Type;
  ip_address : string → option ip_obj;
  is_private : ip_obj → bool;
  is_loopback : ip_obj → bool;
  to_str : ip_obj → string
}.

(** *** IPv4 dotted-quad addresses

    The IPv4 half of the module, after CPython's [IPv4Address]: an address
    is its 32-bit integer [_ip].  The IPv6 half is left out: the instance
    below takes any other string as malformed, and the examples use dotted
    quads only. *)

(** The integer of four octets, [int.from_bytes(octets, 'big')]. *)
Definition quad (a b c d : Z) : Z :=
  Z.lor (Z.shiftl a 24) (Z.lor (Z.shiftl b 16) (Z.lor (Z.shiftl c 8) d)).

Definition digit_val (a : ascii) : option Z :=
  let n := Z.of_N (N_of_ascii a) in
  if (48 <=? n) && (n <=? 57) then Some (n - 48) else None.

(** [int(s, 10)] for a string of ASCII digits; [None] for another string. *)
Fixpoint digits_val (acc : Z) (s : string) : option Z :=
  match s with
  | EmptyString => Some acc
  | String a s' =>
      match digit_val a with
      | Some d => digits_val (10 * acc + d) s'
      | None => None
      end
  end.

(** [IPv4Address._parse_octet]: one to three ASCII digits, no leading zero
    but in "0", at most 255. *)
Definition parse_octet (octet_str : string) : option Z :=
  match octet_str with
  | EmptyString => None
  | String a _ =>
      match digits_val 0 octet_str with
      | None => None
      | Some octet_int =>
          if (3 <? String.length octet_str)%nat then None
          else if negb (String.eqb octet_str "0") && Ascii.eqb a "0"%char
          then None
          else if 255 <? octet_int then None
          else Some octet_int
      end
  end.

(** [IPv4Address._ip_int_from_string]. *)
Definition ip_int_from_string (ip_str : string) : option Z :=
  match Py.split_on "."%char ip_str with
  | [a; b; c; d] =>
      match parse_octet a, parse_octet b, parse_octet c, parse_octet d with
      | Some a, Some b, Some c, Some d => Some (quad a b c d)
      | _, _, _, _ => None
      end
  | _ => None
  end.

(** Byte [i] of [ip_int.to_bytes(4, 'big')]. *)
Definition octet (ip_int : Z) (i : Z) : Z :=
  Z.land (Z.shiftr ip_int (8 * (3 - i))) 255.

(** [IPv4Address._string_from_ip_int]. *)
Definition string_from_ip_int (ip_int : Z) : string :=
  Py.join "." (map (λ i, Py.str_of_int (octet ip_int i)) [0; 1; 2; 3]).

(** [ip in IPv4Network(net/len)]: the same leading [len] bits. *)
Definition in_network (ip : Z) (net : Z * Z) : bool :=
  Z.shiftr ip (32 - net.2) =? Z.shiftr (net.1) (32 - net.2).

(** [IPv4Address._constants._private_networks] and
    [_private_networks_exceptions]. *)
Definition private_networks : list (Z * Z) :=
  [ (quad 0 0 0 0, 8); (quad 10 0 0 0, 8); (quad 127 0 0 0, 8);
    (quad 169 254 0 0, 16); (quad 172 16 0 0, 12); (quad 192 0 0 0, 24);
    (quad 192 0 0 170, 31); (quad 192 0 2 0, 24); (quad 192 168 0 0, 16);
    (quad 198 18 0 0, 15); (quad 198 51 100 0, 24); (quad 203 0 113 0, 24);
    (quad 240 0 0 0, 4); (quad 255 255 255 255, 32) ].

Definition private_networks_exceptions : list (Z * Z) :=
  [ (quad 192 0 0 9, 32); (quad 192 0 0 10, 32) ].

(** [IPv4Address.is_private]. *)
Definition ipv4_is_private (ip : Z) : bool :=
  existsb (in_network ip) private_networks
  && forallb (λ net, negb (in_network ip net)) private_networks_exceptions.

(** [IPv4Address.is_loopback]. *)
Definition ipv4_is_loopback (ip : Z) : bool :=
  in_network ip (quad 127 0 0 0, 8).

(** The instance used for the concrete examples. *)
Definition ipv4 : Lib :=
  {| ip_obj := Z;
     ip_address := ip_int_from_string;
     is_private := ipv4_is_private;
     is_loopback := ipv4_is_loopback;
     to_str := string_from_ip_int |}.

End Ipaddr.

(* ===================================================================== *)
(** ** networkws.py: [ConnectionTracker] *)
(* ===================================================================== *)

Module NetworkWS.
Import Ipaddr.

(** *** What one polling cycle reads from its environment *)

Inductive sock_type := SOCK_STREAM | SOCK_DGRAM.

(** [psutil]'s [addr(ip, port)]. *)
Record addr := { ip : string; port : Z }.

(** Outcome of [psutil.Process(conn.pid).name()] (lines 47-51). *)
Inductive proc_lookup :=
| ProcName (name : string)
| ProcDenied     (* psutil.NoSuchProcess or psutil.AccessDenied *)
| ProcError.     (* any other exception: handled at line 93 *)

(** One element of [psutil.net_connections(kind='inet')], together with
    what the loop body reads while it handles that element: the process
    lookup, [datetime.now().isoformat()] and [str(uuid.uuid4())].
    [raddr] is [None] where psutil gives the empty tuple; an inet socket
    always has its [laddr]. *)
Record raw_conn := {
  laddr : addr;
  raddr : option addr;
  type : sock_type;
  status : string;
  proc : proc_lookup;
  now_iso : string;
  new_uid : string
}.

(** The dictionary built at lines 63-87. *)
Record connection_data := {
  ts : string;
  uid : string;
  orig_h : string;
  orig_p : Z;
  resp_h : string;
  resp_p : Z;
  proto : string;
  service : string;
  duration : Q;
  orig_bytes : Z;
  resp_bytes : Z;
  conn_state : string;
  local_orig : bool;
  local_resp : bool;
  missed_bytes : Z;
  history : string;
  orig_pkts : Z;
  orig_ip_bytes : Z;
  resp_pkts : Z;
  resp_ip_bytes : Z;
  tunnel_parents : list string;
  label : string;
  detailed_label : string
}.

(** [self.connections] and [self.start_times]. *)
Record ConnectionTracker := {
  connections : gmap string connection_data;
  start_times : gmap string Q
}.

(** [__init__]. *)
Definition init : ConnectionTracker :=
  {| connections := ∅; start_times := ∅ |}.

(** *** [is_local_address] (lines 19-28) *)

Definition is_local_address {L : Lib} (ip : string) : bool :=
  match ip_address ip with
  | Some ip_obj =>
      is_private ip_obj
      || is_loopback ip_obj
      || String.eqb (to_str ip_obj) "0.0.0.0"
      || Py.startswith "169.254" (to_str ip_obj)
  | None => false
  end.

(** *** [get_detailed_connections] (lines 30-104) *)

(** Line 39. *)
Definition conn_id (conn : raw_conn) : string :=
  ip (laddr conn) +:+ ":" +:+ Py.str_of_int (port (laddr conn)) +:+ "-"
  +:+ match raddr conn with Some r => ip r | None => "None" end
  +:+ ":"
  +:+ match raddr conn with
      | Some r => Py.str_of_int (port r)
      | None => "None"
      end.

(** [round(x, 3)]: to the nearest multiple of 1/1000, ties to even. *)
Definition round_half_even (q : Q) : Z :=
  let f := Qfloor q in
  match (q - inject_Z f ?= 1 # 2)%Q with
  | Lt => f
  | Gt => f + 1
  | Eq => if Z.even f then f else f + 1
  end.

Definition round3 (q : Q) : Q :=
  (inject_Z (round_half_even (q * 1000)) / 1000)%Q.

(** Lines 47-51; [None] when the lookup raises something else. *)
Definition process_name (conn : raw_conn) : option string :=
  match proc conn with
  | ProcName n => Some n
  | ProcDenied => Some "unknown"
  | ProcError => None
  end.

(** Lines 46-87, run after line 44.  [None]: an exception was raised and
    control went to the handler at line 93. *)
Definition build {L : Lib} (self : ConnectionTracker) (current_time : Q)
    (conn : raw_conn) : option connection_data :=
  name ← process_name conn;
  start ← start_times self !! conn_id conn;
  let duration := (current_time - start)%Q in
  first ← Py.index0 (status conn);
  let history :=
    match connections self !! conn_id conn with
    | Some old => history old +:+ first
    | None => first
    end in
  Some {|
    ts := now_iso conn;
    uid := new_uid conn;
    orig_h := ip (laddr conn);
    orig_p := port (laddr conn);
    resp_h := match raddr conn with Some r => ip r | None => "0.0.0.0" end;
    resp_p := match raddr conn with Some r => port r | None => 0 end;
    proto := match type conn with
             | SOCK_STREAM => "tcp"
             | SOCK_DGRAM => "udp"
             end;
    service := name;
    duration := round3 duration;
    orig_bytes := 0;
    resp_bytes := 0;
    conn_state := status conn;
    local_orig := is_local_address (ip (laddr conn));
    local_resp :=
      is_local_address
        match raddr conn with Some r => ip r | None => "0.0.0.0" end;
    missed_bytes := 0;
    history := Py.slice_to 20 history;
    orig_pkts := 0;
    orig_ip_bytes := 0;
    resp_pkts := 0;
    resp_ip_bytes := 0;
    tunnel_parents := [];
    label := "Normal";
    detailed_label :=
      "Process: " +:+ name +:+ ", State: " +:+ status conn
  |}.

(** The condition of line 89,
    [self.is_local_address(conn.laddr.ip)==False & conn.laddr.port!=3389].
    In Python [&] binds tighter than [==] and [!=]: the expression is the
    chained comparison [a == (False & port) != 3389], that is
    [a == m and m != 3389] with [m = False & port], where the Booleans
    count as the integers 0 and 1. *)
Definition retained (is_local : bool) (port : Z) : bool :=
  let m := Z.land (Z.b2z false) port in
  (Z.b2z is_local =? m) && negb (m =? 3389).

(** The locals of one call, with the tracker they update. *)
Record cycle := {
  self : ConnectionTracker;
  current_connections : gset string;
  connections_data : list connection_data
}.

(** Lines 43-44. *)
Definition record_start (current_time : Q) (starts : gmap string Q)
    (id : string) : gmap string Q :=
  match starts !! id with
  | Some _ => starts
  | None => <[id := current_time]> starts
  end.

(** Lines 43-87 for one sampled connection: the record it builds. *)
Definition visit {L : Lib} (current_time : Q) (t : ConnectionTracker)
    (conn : raw_conn) : option connection_data :=
  build {| connections := connections t;
           start_times :=
             record_start current_time (start_times t) (conn_id conn) |}
    current_time conn.

(** One iteration of the loop of lines 36-95. *)
Definition step {L : Lib} (current_time : Q) (s : cycle) (conn : raw_conn)
    : cycle :=
  let id := conn_id conn in
  let current := {[id]} ∪ current_connections s in
  let starts := record_start current_time (start_times (self s)) id in
  let tracker :=
    {| connections := connections (self s); start_times := starts |} in
  match visit current_time (self s) conn with
  | Some data =>
      if retained (is_local_address (ip (laddr conn))) (port (laddr conn))
      then {| self := {| connections := <[id := data]> (connections (self s));
                         start_times := starts |};
              current_connections := current;
              connections_data := connections_data s ++ [data] |}
      else {| self := tracker;
              current_connections := current;
              connections_data := connections_data s |}
  | None => {| self := tracker;
               current_connections := current;
               connections_data := connections_data s |}
  end.

(** One iteration of the loop of lines 98-102. *)
Definition cleanup_one (current : gset string) (t : ConnectionTracker)
    (id : string) : ConnectionTracker :=
  if decide (id ∈ current) then t
  else {| start_times := delete id (start_times t);
          connections :=
            match connections t !! id with
            | Some _ => delete id (connections t)
            | None => connections t
            end |}.

(** [list(self.start_times.keys())]. *)
Definition keys (t : ConnectionTracker) : list string :=
  (map_to_list (start_times t)).*1.

(** Lines 32-34: the locals at the start of a call. *)
Definition enter (t : ConnectionTracker) : cycle :=
  {| self := t; current_connections := ∅; connections_data := [] |}.

(** The whole method: the records returned and the tracker afterwards. *)
Definition get_detailed_connections {L : Lib} (t : ConnectionTracker)
    (current_time : Q) (raw : list raw_conn)
    : list connection_data * ConnectionTracker :=
  let s := foldl (step current_time) (enter t) raw in
  (connections_data s,
   foldl (cleanup_one (current_connections s)) (self s) (keys (self s))).

(** The loop of [handler] (lines 112-127) over a finite number of cycles:
    each cycle has its clock reading and its sample. *)
Fixpoint run {L : Lib} (t : ConnectionTracker) (cycles : list (Q * list raw_conn))
    : list (list connection_data) * ConnectionTracker :=
  match cycles with
  | [] => ([], t)
  | (now, raw) :: rest =>
      let r := get_detailed_connections t now raw in
      let rs := run r.2 rest in
      (r.1 :: rs.1, rs.2)
  end.

(** *** Predicates on trackers used in the statements *)

(** The history cap of line 79. *)
Definition history_capped (r : connection_data) : Prop :=
  (String.length (history r) ≤ 20)%nat.

Definition stored_capped (t : ConnectionTracker) : Prop :=
  ∀ id r, connections t !! id = Some r → history_capped r.

(** An identity the tracker holds something about. *)
Definition tracked (t : ConnectionTracker) (id : string) : Prop :=
  is_Some (start_times t !! id) ∨ is_Some (connections t !! id).

Definition untracked (t : ConnectionTracker) (id : string) : Prop :=
  start_times t !! id = None ∧ connections t !! id = None.

(** Every stored record has a duration start: line 44 runs before
    line 91, and lines 100-102 delete both. *)
Definition well_formed (t : ConnectionTracker) : Prop :=
  ∀ id, is_Some (connections t !! id) → is_Some (start_times t !! id).

(** The tracker without anything about [id]. *)
Definition forget (id : string) (t : ConnectionTracker) : ConnectionTracker :=
  {| connections := delete id (connections t);
     start_times := delete id (start_times t) |}.

(** Two trackers that hold the same about every identity but [id]. *)
Definition agree_off (id : string) (t t' : ConnectionTracker) : Prop :=
  ∀ k, k ≠ id →
       connections t !! k = connections t' !! k
       ∧ start_times t !! k = start_times t' !! k.

(** *** [handler] (lines 106-132) *)

(** The [message] of lines 117-121. *)
Record message := {
  msg_timestamp : string;
  msg_total_connections : nat;
  msg_connections : list connection_data
}.

(** What one pass of the loop of lines 112-127 reads: the clock and the
    sample of the tracker's call, [datetime.now().isoformat()] at line 118,
    and whether [websocket.send] returns ([false]: it raises, and the
    handlers of lines 129-132 end the session). *)
Record pass := {
  pass_clock : Q;
  pass_sample : list raw_conn;
  pass_stamp : string;
  pass_sent : bool
}.

(** The loop from a tracker on: the messages the client receives. *)
Fixpoint handler_loop {L : Lib} (tracker : ConnectionTracker)
    (passes : list pass) : list message :=
  match passes with
  | [] => []
  | p :: rest =>
      let r := get_detailed_connections tracker (pass_clock p)
                 (pass_sample p) in
      let message :=
        {| msg_timestamp := pass_stamp p;
           msg_total_connections := length r.1;
           msg_connections := r.1 |} in
      if pass_sent p then message :: handler_loop r.2 rest else []
  end.

(** Lines 106-132: a session has a tracker of its own. *)
Definition handler {L : Lib} (passes : list pass) : list message :=
  handler_loop init passes.

(** *** Predicates on sampled connections used in the statements *)

(** The body of the loop raises nothing on [conn]: the process lookup gives
    a name or one of the two exceptions of line 50, and [conn.status[0]]
    exists. *)
Definition processed (conn : raw_conn) : bool :=
  match process_name conn, Py.index0 (status conn) with
  | Some _, Some _ => true
  | _, _ => false
  end.

(** [conn] is processed and its local address is not local. *)
Definition emits {L : Lib} (conn : raw_conn) : bool :=
  processed conn && negb (is_local_address (ip (laddr conn))).

(** [data] carries what the loop reads from [conn]. *)
Definition describes (conn : raw_conn) (data : connection_data) : Prop :=
  ts data = now_iso conn
  ∧ uid data = new_uid conn
  ∧ orig_h data = ip (laddr conn)
  ∧ orig_p data = port (laddr conn)
  ∧ conn_state data = status conn
  ∧ process_name conn = Some (service data)
  ∧ local_orig data = false.

(** Two cycle states that a loop at clock [now] cannot tell apart: the same
    records so far, the same stored records, and the same duration start
    for every identity once line 44 has run. *)
Definition alike (now : Q) (s s' : cycle) : Prop :=
  connections (self s) = connections (self s')
  ∧ connections_data s = connections_data s'
  ∧ ∀ k, default now (start_times (self s) !! k)
         = default now (start_times (self s') !! k).

(** The character [a] occurs in [s]. *)
Fixpoint occurs (a : ascii) (s : string) : Prop :=
  match s with
  | EmptyString => False
  | String b s' => a = b ∨ occurs a s'
  end.

(** *** Sample connections for the concrete cases

    All to 8.8.8.8:443, owned by a process whose name can be read. *)

Definition sample (local_ip : string) (local_port : Z) (st : string)
    : raw_conn :=
  {| laddr := {| ip := local_ip; port := local_port |};
     raddr := Some {| ip := "8.8.8.8"; port := 443 |};
     type := SOCK_STREAM;
     status := st;
     proc := ProcName "chrome";
     now_iso := "2024-05-01T10:00:00";
     new_uid := "4b0e6a7c" |}.

Definition public_rdp : raw_conn := sample "93.184.216.34" 3389 "ESTABLISHED".
Definition public_https : raw_conn := sample "93.184.216.34" 443 "ESTABLISHED".
Definition lan_rdp : raw_conn := sample "192.168.1.5" 3389 "ESTABLISHED".
Definition loopback_app : raw_conn := sample "127.0.0.1" 5000 "LISTEN".

(** A connection whose process lookup raises, and one without a status. *)
Definition broken_lookup : raw_conn :=
  {| laddr := {| ip := "93.184.216.34"; port := 8080 |};
     raddr := None;
     type := SOCK_DGRAM;
     status := "NONE";
     proc := ProcError;
     now_iso := "2024-05-01T10:00:00";
     new_uid := "9d2f" |}.

End NetworkWS.

(* ===================================================================== *)
(** ** service.py: [NetworkAnalyzer] and [WebSocketServer] *)
(* ===================================================================== *)

Module Service.

(** *** [NetworkAnalyzer.calculate_anomaly_score] (lines 70-101) *)

(** One row of the frame returned by [preprocess_data]: the six named
    columns and the one-hot columns [service_0], [service_1], ... *)
Record feature_row := {
  EventType : Q;
  category : Q;
  subcategory : Q;
  duration : Q;
  orig_pkts : Q;
  orig_bytes : Q;
  service_cols : list Q
}.

(** Lines 72-80; the body looks up these seven keys only. *)
Definition coefficients (key : string) : Q :=
  if String.eqb key "EventType" then -0.015
  else if String.eqb key "category" then 0.012
  else if String.eqb key "subcategory" then 0.008
  else if String.eqb key "duration" then 0.007
  else if String.eqb key "orig_pkts" then 0.005
  else if String.eqb key "orig_bytes" then 0.005
  else if String.eqb key "service" then 0.003
  else 0.

(** [features[service_cols].sum(axis=1)] for one row. *)
Definition row_sum (l : list Q) : Q := foldl Qplus 0%Q l.

(** Lines 82-93 for one row: the score before normalization. *)
Definition raw_score (f : feature_row) : Q :=
  (EventType f * coefficients "EventType"
   + category f * coefficients "category"
   + subcategory f * coefficients "subcategory"
   + duration f * coefficients "duration"
   + orig_pkts f * coefficients "orig_pkts"
   + orig_bytes f * coefficients "orig_bytes"
   + row_sum (service_cols f) * coefficients "service")%Q.

(** [Series.min()] and [Series.max()].  On an empty series pandas gives
    NaN; the value is then used for no row, and is 0 here. *)
Definition series_min (l : list Q) : Q :=
  match l with
  | [] => 0%Q
  | x :: l' => foldl Qmin x l'
  end.

Definition series_max (l : list Q) : Q :=
  match l with
  | [] => 0%Q
  | x :: l' => foldl Qmax x l'
  end.

(** Line 95. *)
Definition normalize (score : list Q) : list Q :=
  (λ x, (x - series_min score) / (series_max score - series_min score + 1e-10))%Q
    <$> score.

(** The method.  Every column the body reads is a field of [feature_row],
    so the handler of line 99 (result [None]) is never entered. *)
Definition calculate_anomaly_score (features : list feature_row)
    : option (list Q) :=
  Some (normalize (raw_score <$> features)).

(** Line 95 once more, each of its float operations and its literal now
    followed by a rounding [rnd] to a representable number.  [normalize] is
    the case of a rounding that changes nothing. *)
Definition normalize_rounded (rnd : Q → Q) (score : list Q) : list Q :=
  (λ x, rnd (rnd (x - series_min score)
             / rnd (rnd (series_max score - series_min score) + rnd 1e-10)))%Q
    <$> score.

(** A rounding to try [normalize_rounded] with: down to the next multiple
    of 2^-60. *)
Definition round_down (x : Q) : Q :=
  (inject_Z (Qfloor (x * inject_Z (2 ^ 60))) / inject_Z (2 ^ 60))%Q.

(** *** [WebSocketServer.process_network_data]: one batch (lines 165-198) *)

(** One row of the [results] frame, with its [label] column. *)
Record result_row := {
  timestamp : string;
  source : string;
  destination : string;
  service : string;
  anomaly_score : Q;
  label : string
}.

Record summary := {
  avg_score : Q;
  max_score : Q;
  malicious_count : nat;
  benign_count : nat;
  total_connections : nat
}.

(** [vis_data]; its first key is also called [timestamp]. *)
Record vis_data := {
  vis_timestamp : string;
  vis_summary : summary;
  top_anomalies : list result_row
}.

(** Line 185. *)
Definition label_of (x : Q) : string :=
  if Qle_bool 0.8 x then "Malicious" else "Benign".

(** Lines 174-186 for one connection and its score. *)
Definition result_of (conn : NetworkWS.connection_data) (score : Q)
    : result_row :=
  {| timestamp := NetworkWS.ts conn;
     source := NetworkWS.orig_h conn +:+ ":"
               +:+ Py.str_of_int (NetworkWS.orig_p conn);
     destination := NetworkWS.resp_h conn +:+ ":"
                    +:+ Py.str_of_int (NetworkWS.resp_p conn);
     service := NetworkWS.service conn;
     anomaly_score := score;
     label := label_of score |}.

(** Lines 174-186.  The frame is built from four lists as long as
    [connections] and the series [scores]; pandas raises [ValueError] when
    the lengths differ ([None] here; it is caught at line 218). *)
Definition results (connections : list NetworkWS.connection_data)
    (scores : list Q) : option (list result_row) :=
  if (length connections =? length scores)%nat
  then Some (zip_with result_of connections scores)
  else None.

(** [DataFrame.nlargest(n, 'anomaly_score')], a pandas method, as pandas
    documents it for its default [keep='first']: the rows in descending
    order of the column, the first occurrences first among equal values,
    and the first [n] of them.  The scores hold no NaN. *)
Fixpoint insert_desc (r : result_row) (l : list result_row)
    : list result_row :=
  match l with
  | [] => [r]
  | y :: l' =>
      if Qle_bool (anomaly_score y) (anomaly_score r) then r :: y :: l'
      else y :: insert_desc r l'
  end.

Definition sort_desc (l : list result_row) : list result_row :=
  foldr insert_desc [] l.

Definition nlargest (n : nat) (rows : list result_row) : list result_row :=
  take n (sort_desc rows).

(** [results[results['label'] == lab].shape[0]]. *)
Definition count_label (lab : string) (rows : list result_row) : nat :=
  length (List.filter (λ r, String.eqb (label r) lab) rows).

(** [scores.mean()]. *)
Definition mean (scores : list Q) : Q :=
  (row_sum scores / inject_Z (Z.of_nat (length scores)))%Q.

Section Batch.

(** [NetworkAnalyzer.preprocess_data] (lines 30-68) is built from pandas and
    scikit-learn transformers; it stands here for any function from a batch
    to a feature frame, [None] being its failure value. *)
Variable preprocess_data :
  list NetworkWS.connection_data → option (list feature_row).

(** Lines 167-198: what is broadcast for one decoded message, [None] when
    nothing is.  [now_iso] is [datetime.now().isoformat()] at line 189. *)
Definition process_batch (now_iso : string)
    (connections : list NetworkWS.connection_data) : option vis_data :=
  match connections with
  | [] => None
  | _ :: _ =>
      features ← preprocess_data connections;
      scores ← calculate_anomaly_score features;
      rows ← results connections scores;
      Some {| vis_timestamp := now_iso;
              vis_summary :=
                {| avg_score := mean scores;
                   max_score := series_max scores;
                   malicious_count := count_label "Malicious" rows;
                   benign_count := count_label "Benign" rows;
                   total_connections := length scores |};
              top_anomalies := nlargest 10 rows |}
  end.

End Batch.

(** *** Orders on rows used in the statements *)

(** [a] may stand before [b] in a descending ranking. *)
Definition ranks_before (a b : result_row) : Prop :=
  (anomaly_score b <= anomaly_score a)%Q.

(** The rows whose score is [v]. *)
Definition scoring (v : Q) (l : list result_row) : list result_row :=
  List.filter (λ r, Qeq_bool (anomaly_score r) v) l.

(** *** [WebSocketServer]: the subscriber set (lines 103-124) *)

(** A websocket connection object; the set holds them by identity. *)
Definition client := positive.

Inductive exn := KeyError | ConnectionClosed.

Inductive outcome (A : Type) :=
| Returned (a : A)
| Raised (e : exn).
Global Arguments Returned {A} a.
Global Arguments Raised {A} e.

(** The server's [connected_clients] and the part of the network its calls
    act upon: the websockets whose [send] raises, and what has been
    delivered to each websocket. *)
Record state := {
  connected_clients : gset client;
  closed : gset client;
  received : gmap client (list string)
}.

Definition inbox (σ : state) (websocket : client) : list string :=
  default [] (received σ !! websocket).

(** A coroutine: it returns or raises, and leaves a state. *)
Definition M (A : Type) : Type := state → outcome A * state.

(** Lines 108-111. *)
Definition register (websocket : client) : M unit := λ σ,
  (Returned (),
   {| connected_clients := {[websocket]} ∪ connected_clients σ;
      closed := closed σ;
      received := received σ |}).

(** Lines 113-116: [set.remove] raises [KeyError] on a missing element. *)
Definition unregister (websocket : client) : M unit := λ σ,
  if decide (websocket ∈ connected_clients σ)
  then (Returned (),
        {| connected_clients := connected_clients σ ∖ {[websocket]};
           closed := closed σ;
           received := received σ |})
  else (Raised KeyError, σ).

(** [websocket.send(message)]. *)
Definition send (websocket : client) (message : string) : M unit := λ σ,
  if decide (websocket ∈ closed σ)
  then (Raised ConnectionClosed, σ)
  else (Returned (),
        {| connected_clients := connected_clients σ;
           closed := closed σ;
           received :=
             <[websocket := (inbox σ websocket ++ [message])%list]>
               (received σ) |}).

(** [asyncio.gather] with [return_exceptions=True]: every task is run, and
    what each returned or raised is put in the list of results, in the
    order of the tasks; [gather] itself raises nothing.  The tasks here are
    sends to distinct websockets, which act on distinct inboxes, so the
    order in which they run does not show. *)
Fixpoint gather_return_exceptions {A : Type} (tasks : list (M A)) (σ : state)
    : list (outcome A) * state :=
  match tasks with
  | [] => ([], σ)
  | task :: tasks' =>
      let r := task σ in
      let rs := gather_return_exceptions tasks' r.2 in
      (r.1 :: rs.1, rs.2)
  end.

(** Lines 118-124. *)
Definition broadcast (message : string) : M unit := λ σ,
  if decide (connected_clients σ = ∅) then (Returned (), σ)
  else
    let sends :=
      (λ client, send client message) <$> elements (connected_clients σ) in
    (Returned (), (gather_return_exceptions sends σ).2).

(** The list that [gather] returns at line 121, which [broadcast] drops. *)
Definition broadcast_results (message : string) (σ : state)
    : list (outcome unit) :=
  (gather_return_exceptions
     ((λ client, send client message) <$> elements (connected_clients σ))
     σ).1.

(** What a websocket's [send] returns or raises. *)
Definition send_outcome (σ : state) (websocket : client) : outcome unit :=
  if decide (websocket ∈ closed σ) then Raised ConnectionClosed
  else Returned ().

(** *** [handle_client] (lines 126-145) *)

(** What the other sessions and the relay loop do to the server while one
    session is open. *)
Inductive event :=
| Register (websocket : client)
| Unregister (websocket : client)
| Broadcast (message : string).

Definition happen (σ : state) (e : event) : state :=
  match e with
  | Register w => (register w σ).2
  | Unregister w => (unregister w σ).2
  | Broadcast m => (broadcast m σ).2
  end.



(** *** [process_network_data]: from a decoded message to the subscribers *)

Section Relay.

Variable preprocess_data :
  list NetworkWS.connection_data → option (list feature_row).

(** [json.dumps]. *)
Variable dumps : vis_data → string.

(** Lines 167-200 for the [connections] of one decoded message: the batch
    is scored and its payload, if there is one, is broadcast. *)
Definition relay (now_iso : string)
    (connections : list NetworkWS.connection_data) : M unit := λ σ,
  match process_batch preprocess_data now_iso connections with
  | Some v => broadcast (dumps v) σ
  | None => (Returned (), σ)
  end.

End Relay.

(** *** [NetworkAnalyzer.preprocess_data] (lines 30-68)

    The method works column by column on a pandas frame, with three
    scikit-learn transformers fitted on the batch itself.  A column is the
    list of its values in batch order; the transformers are as scikit-learn
    documents them.  The records are those the collector sends, where every
    key is present and no value is null, so that each [fillna] changes
    nothing. *)

(** The three values of the [EventType] column after line 37. *)
Inductive event_type := Info | Warning | Error.

(** Lines 34-37. *)
Definition classify (conn_state : string) : event_type :=
  if existsb (String.eqb conn_state) ["REJECTED"; "FAILED"] then Error
  else if existsb (String.eqb conn_state) ["TIMEOUT"; "CLOSED"] then Warning
  else Info.

(** [self.event_type_map] (line 28). *)
Definition event_type_map (e : event_type) : Q :=
  match e with Info => 0 | Warning => 1 | Error => 2 end.

(** [LabelEncoder.fit] and [OneHotEncoder.fit]: the distinct values of the
    column, in increasing order ([classes_], [categories_]). *)
Definition classes (column : list string) : list string :=
  merge_sort String.le (remove_dups column).

(** [LabelEncoder.transform] for one value: its index in [classes_];
    [None] is the [ValueError] for a value not seen by [fit]. *)
Fixpoint index_of (x : string) (l : list string) : option nat :=
  match l with
  | [] => None
  | y :: l' => if String.eqb x y then Some 0%nat else S <$> index_of x l'
  end.

(** [OneHotEncoder.transform] for one value: one indicator per category. *)
Definition one_hot (categories : list string) (x : string) : list Q :=
  (λ c, if String.eqb c x then 1 else 0)%Q <$> categories.

Section Scaler.

(** [np.sqrt] on floats, and the test by which [StandardScaler.fit] takes a
    column for constant from its variance, its mean and its length (the
    test has changed between scikit-learn versions; a column of variance 0
    passes every one of them). *)
Variable sqrt : Q → Q.
Variable is_constant : Q → Q → nat → bool.

(** [StandardScaler.fit]: [mean_], [var_] and [scale_] of a column;
    [scale_] is 1 for a constant column. *)
Definition var (column : list Q) : Q :=
  mean ((λ x, (x - mean column) * (x - mean column))%Q <$> column).

Definition scale (column : list Q) : Q :=
  if is_constant (var column) (mean column) (length column) then 1%Q
  else sqrt (var column).

(** [StandardScaler.transform] for one value of the column. *)
Definition standardize (column : list Q) (x : Q) : Q :=
  ((x - mean column) / scale column)%Q.

(** Lines 32-64 for one record, given the batch it is in. *)
Definition features_of (data : list NetworkWS.connection_data)
    (conn : NetworkWS.connection_data) : option feature_row :=
  category ← index_of (NetworkWS.service conn)
                (classes (NetworkWS.service <$> data));
  subcategory ← index_of (NetworkWS.conn_state conn)
                   (classes (NetworkWS.conn_state <$> data));
  Some {|
    EventType := event_type_map (classify (NetworkWS.conn_state conn));
    category := inject_Z (Z.of_nat category);
    subcategory := inject_Z (Z.of_nat subcategory);
    duration :=
      standardize (NetworkWS.duration <$> data) (NetworkWS.duration conn);
    orig_pkts :=
      standardize ((λ c, inject_Z (NetworkWS.orig_pkts c)) <$> data)
        (inject_Z (NetworkWS.orig_pkts conn));
    orig_bytes :=
      standardize ((λ c, inject_Z (NetworkWS.orig_bytes c)) <$> data)
        (inject_Z (NetworkWS.orig_bytes conn));
    service_cols :=
      one_hot (classes (NetworkWS.service <$> data)) (NetworkWS.service conn)
  |}.

(** The method.  On an empty list the frame has no column and line 34
    raises [KeyError]; an exception gives [None] (lines 66-68). *)
Definition preprocess_data (data : list NetworkWS.connection_data)
    : option (list feature_row) :=
  match data with
  | [] => None
  | _ :: _ => mapM (features_of data) data
  end.

End Scaler.


(** A test for constant columns to run the examples with: variance 0. *)
Definition zero_variance (var mean : Q) (n : nat) : bool := Qeq_bool var 0.

(** *** Sample batch *)

Definition sample_conn (host svc : string) : NetworkWS.connection_data :=
  {| NetworkWS.ts := "2024-05-01T10:00:00";
     NetworkWS.uid := "4b0e6a7c";
     NetworkWS.orig_h := host;
     NetworkWS.orig_p := 51000;
     NetworkWS.resp_h := "8.8.8.8";
     NetworkWS.resp_p := 443;
     NetworkWS.proto := "tcp";
     NetworkWS.service := svc;
     NetworkWS.duration := 0;
     NetworkWS.orig_bytes := 0;
     NetworkWS.resp_bytes := 0;
     NetworkWS.conn_state := "ESTABLISHED";
     NetworkWS.local_orig := false;
     NetworkWS.local_resp := false;
     NetworkWS.missed_bytes := 0;
     NetworkWS.history := "E";
     NetworkWS.orig_pkts := 0;
     NetworkWS.orig_ip_bytes := 0;
     NetworkWS.resp_pkts := 0;
     NetworkWS.resp_ip_bytes := 0;
     NetworkWS.tunnel_parents := [];
     NetworkWS.label := "Normal";
     NetworkWS.detailed_label := "Process: " +:+ svc +:+ ", State: ESTABLISHED"
  |}.

Definition sample_row (cat dur : Q) (onehot : list Q) : feature_row :=
  {| EventType := 0; category := cat; subcategory := 0; duration := dur;
     orig_pkts := 0; orig_bytes := 0; service_cols := onehot |}.

(** Three connections, the first and the third with the same features. *)
Definition sample_connections : list NetworkWS.connection_data :=
  [sample_conn "93.184.216.34" "chrome"; sample_conn "93.184.216.35" "sshd";
   sample_conn "93.184.216.36" "chrome"].

Definition sample_features : list feature_row :=
  [sample_row 0 0 [1; 0]; sample_row 1 1 [0; 1]; sample_row 0 0 [1; 0]]%Q.

Definition sample_preprocess (_ : list NetworkWS.connection_data)
    : option (list feature_row) :=
  Some sample_features.

(** *** Sample states *)

(** No subscriber. *)
Definition idle : state :=
  {| connected_clients := ∅; closed := ∅; received := ∅ |}.

(** Three subscribers; the second one's [send] fails. *)
Definition three_subscribers : state :=
  {| connected_clients := {[1%positive; 2%positive; 3%positive]};
     closed := {[2%positive]};
     received := ∅ |}.

End Service.

(* ===================================================================== *)
(** * Part II: the properties *)
(* ===================================================================== *)

Module PyFacts.
Import Py.

Lemma slice_to_length n s : (String.length (slice_to n s) <= n)%nat.
Proof.
  revert s; induction n as [|n IH]; intros [|a s]; cbn; try lia.
  specialize (IH s); lia.
Qed.

Lemma slice_to_short n s :
  (String.length s <= n)%nat → slice_to n s = s.
Proof.
  revert s; induction n as [|n IH]; intros [|a s]; cbn; intros H;
    try reflexivity; try lia.
  f_equal; apply IH; lia.
Qed.

Lemma slice_to_min n s :
  String.length (slice_to n s) = Nat.min n (String.length s).
Proof.
  revert s; induction n as [|n IH]; intros [|a s]; cbn; try done.
  by rewrite IH.
Qed.

Lemma length_append s1 s2 :
  String.length (s1 +:+ s2) = (String.length s1 + String.length s2)%nat.
Proof.
  induction s1 as [|a s1 IH]; [done|].
  change (String a s1 +:+ s2) with (String a (s1 +:+ s2)).
  cbn [String.length Nat.add]. by rewrite IH.
Qed.

Lemma slice_to_append n s1 s2 :
  (String.length s1 <= n)%nat →
  slice_to n (s1 +:+ s2) = s1 +:+ slice_to (n - String.length s1) s2.
Proof.
  revert n; induction s1 as [|a s1 IH]; intros n Hn.
  - change ("" +:+ s2) with s2. cbn [String.length]. by rewrite Nat.sub_0_r.
  - change (String a s1 +:+ s2) with (String a (s1 +:+ s2)).
    destruct n as [|n]; cbn [String.length] in *; [lia|].
    cbn [slice_to Nat.sub]. rewrite IH by lia. done.
Qed.

Lemma index0_length s c : index0 s = Some c → String.length c = 1%nat.
Proof. destruct s; [done|]. by intros [= <-]. Qed.

Global Arguments Py.slice_to : simpl never.

End PyFacts.

(* ===================================================================== *)
(** ** Properties of [ConnectionTracker] *)
(* ===================================================================== *)

Module NetworkWSFacts.
Import Ipaddr NetworkWS.

(** *** Basic facts about one iteration *)

Section Tracker.
Context {L : Lib}.

Implicit Types (t : ConnectionTracker) (s : cycle) (conn : raw_conn)
  (id : string) (now : Q) (raw : list raw_conn).

(** The port plays no part in the condition of line 89. *)
Lemma retained_not_local (is_local : bool) (p : Z) :
  retained is_local p = negb is_local.
Proof.
  unfold retained. rewrite Z.land_0_l. by destruct is_local.
Qed.

Lemma record_start_lookup now (starts : gmap string Q) id id' :
  record_start now starts id !! id' =
    if decide (id = id')
    then Some (default now (starts !! id'))
    else starts !! id'.
Proof.
  unfold record_start. case_decide as E.
  - subst id'. destruct (starts !! id) eqn:Hs; simpl.
    + done.
    + by rewrite lookup_insert_eq.
  - destruct (starts !! id); [done|]. by rewrite lookup_insert_ne.
Qed.

Lemma step_current now s conn :
  current_connections (step now s conn)
  = {[conn_id conn]} ∪ current_connections s.
Proof. unfold step. by repeat case_match. Qed.

Lemma step_start_times now s conn :
  start_times (self (step now s conn))
  = record_start now (start_times (self s)) (conn_id conn).
Proof. unfold step. by repeat case_match. Qed.

Lemma step_connections_ne now s conn id :
  id ≠ conn_id conn →
  connections (self (step now s conn)) !! id
  = connections (self s) !! id.
Proof.
  intros Hne. unfold step. repeat case_match; simpl; try done.
  by rewrite lookup_insert_ne.
Qed.

(** A connection the filter rejects is neither emitted nor stored. *)
Lemma step_rejected now s conn :
  is_local_address (ip (laddr conn)) = true →
  connections (self (step now s conn)) = connections (self s)
  ∧ connections_data (step now s conn) = connections_data s.
Proof.
  intros Hl. unfold step. rewrite retained_not_local, Hl. simpl.
  by case_match.
Qed.

(** What an iteration emits: nothing, or the record it built. *)
Lemma step_emits now s conn :
  connections_data (step now s conn) = connections_data s
  ∧ connections (self (step now s conn)) = connections (self s)
  ∨ ∃ data,
      visit now (self s) conn = Some data
      ∧ is_local_address (ip (laddr conn)) = false
      ∧ connections_data (step now s conn)
        = (connections_data s ++ [data])%list
      ∧ connections (self (step now s conn))
        = <[conn_id conn := data]> (connections (self s)).
Proof.
  unfold step. rewrite retained_not_local.
  destruct (visit now (self s) conn) as [data|] eqn:Hb; [|by left].
  destruct (is_local_address (ip (laddr conn))) eqn:Hl; simpl;
    [by left|].
  right. by exists data.
Qed.

(** *** The first loop (lines 36-95) *)

Lemma loop_current now s raw :
  current_connections (foldl (step now) s raw)
  = list_to_set (conn_id <$> raw) ∪ current_connections s.
Proof.
  revert s. induction raw as [|conn raw IH]; intros s; csimpl.
  - by rewrite (left_id_L ∅ (∪)).
  - rewrite IH, step_current. by rewrite (assoc_L (∪)), (comm_L (∪) _ {[_]}).
Qed.

(** Duration starts are only ever added, with the clock of the cycle. *)
Lemma loop_start_times now s raw id :
  start_times (self (foldl (step now) s raw)) !! id =
    if decide (id ∈ conn_id <$> raw)
    then Some (default now (start_times (self s) !! id))
    else start_times (self s) !! id.
Proof.
  revert s. induction raw as [|conn raw IH]; intros s; csimpl.
  - done.
  - rewrite IH, step_start_times, record_start_lookup.
    rewrite (decide_ext (id ∈ conn_id conn :: (conn_id <$> raw))
               (conn_id conn = id ∨ id ∈ conn_id <$> raw))
      by (rewrite elem_of_cons; intuition congruence).
    destruct (decide (id ∈ conn_id <$> raw)),
      (decide (conn_id conn = id)); simpl.
    + rewrite decide_True by tauto.
      by destruct (start_times (self s) !! id).
    + by rewrite decide_True by tauto.
    + by rewrite decide_True by tauto.
    + by rewrite decide_False by tauto.
Qed.

Lemma loop_connections_absent now s raw id :
  id ∉ conn_id <$> raw →
  connections (self (foldl (step now) s raw)) !! id
  = connections (self s) !! id.
Proof.
  revert s. induction raw as [|conn raw IH]; intros s Hid; csimpl.
  - done.
  - rewrite IH by set_solver. apply step_connections_ne. set_solver.
Qed.

Lemma loop_connections_rejected now s raw id :
  (∀ conn, conn ∈ raw → conn_id conn = id →
           is_local_address (ip (laddr conn)) = true) →
  connections (self (foldl (step now) s raw)) !! id
  = connections (self s) !! id.
Proof.
  revert s. induction raw as [|conn raw IH]; intros s Hrej; csimpl.
  - done.
  - rewrite IH by (intros c Hc; apply Hrej; by right).
    destruct (decide (id = conn_id conn)) as [->|Hne].
    + destruct (step_rejected now s conn) as [-> _]; [|done].
      apply Hrej; [by left|done].
    + by apply step_connections_ne.
Qed.

(** *** The second loop (lines 98-102) *)

Lemma elem_of_keys t id : id ∈ keys t ↔ is_Some (start_times t !! id).
Proof.
  unfold keys. rewrite list_elem_of_fmap. split.
  - intros [[k v] [-> Hkv]]. apply elem_of_map_to_list in Hkv. by exists v.
  - intros [v Hv]. exists (id, v). split; [done|].
    by apply elem_of_map_to_list.
Qed.

Lemma cleanup_one_start_times (current : gset string) t a id :
  start_times (cleanup_one current t a) !! id =
    if decide (a = id ∧ id ∉ current) then None
    else start_times t !! id.
Proof.
  unfold cleanup_one.
  destruct (decide (a ∈ current)) as [Ha|Ha]; simpl.
  - rewrite decide_False; [done|]. by intros [-> ?].
  - destruct (decide (a = id)) as [->|Hne].
    + rewrite decide_True by done. apply lookup_delete_eq.
    + rewrite decide_False by tauto. by apply lookup_delete_ne.
Qed.

Lemma cleanup_one_connections (current : gset string) t a id :
  connections (cleanup_one current t a) !! id =
    if decide (a = id ∧ id ∉ current) then None
    else connections t !! id.
Proof.
  unfold cleanup_one.
  destruct (decide (a ∈ current)) as [Ha|Ha]; simpl.
  - rewrite decide_False; [done|]. by intros [-> ?].
  - destruct (decide (a = id)) as [->|Hne].
    + rewrite decide_True by done.
      destruct (connections t !! id) eqn:E; [|done].
      apply lookup_delete_eq.
    + rewrite decide_False by tauto.
      destruct (connections t !! a); [|done].
      by apply lookup_delete_ne.
Qed.

Lemma cleanup_start_times (current : gset string) t (l : list string) id :
  start_times (foldl (cleanup_one current) t l) !! id =
    if decide (id ∈ l ∧ id ∉ current) then None
    else start_times t !! id.
Proof.
  revert t. induction l as [|a l IH]; intros t; [done|].
  cbn [foldl]. rewrite IH, cleanup_one_start_times.
  rewrite (decide_ext (id ∈ a :: l ∧ id ∉ current)
             ((a = id ∧ id ∉ current) ∨ (id ∈ l ∧ id ∉ current)))
    by (rewrite elem_of_cons; intuition congruence).
  destruct (decide (id ∈ l ∧ id ∉ current)),
    (decide (a = id ∧ id ∉ current)); simpl.
  - by rewrite decide_True by tauto.
  - by rewrite decide_True by tauto.
  - by rewrite decide_True by tauto.
  - by rewrite decide_False by tauto.
Qed.

Lemma cleanup_connections (current : gset string) t (l : list string) id :
  connections (foldl (cleanup_one current) t l) !! id =
    if decide (id ∈ l ∧ id ∉ current) then None
    else connections t !! id.
Proof.
  revert t. induction l as [|a l IH]; intros t; [done|].
  cbn [foldl]. rewrite IH, cleanup_one_connections.
  rewrite (decide_ext (id ∈ a :: l ∧ id ∉ current)
             ((a = id ∧ id ∉ current) ∨ (id ∈ l ∧ id ∉ current)))
    by (rewrite elem_of_cons; intuition congruence).
  destruct (decide (id ∈ l ∧ id ∉ current)),
    (decide (a = id ∧ id ∉ current)); simpl.
  - by rewrite decide_True by tauto.
  - by rewrite decide_True by tauto.
  - by rewrite decide_True by tauto.
  - by rewrite decide_False by tauto.
Qed.

(** *** The state after a call *)

(** After a call the duration-start map holds exactly the identities of
    the sample: old ones keep their start, new ones get the clock. *)
Lemma in_current_of_loop now t raw id :
  id ∈ current_connections (foldl (step now) (enter t) raw)
  ↔ id ∈ conn_id <$> raw.
Proof.
  rewrite loop_current, elem_of_union, elem_of_list_to_set. simpl.
  split; [intros [?|E]; [done|by apply not_elem_of_empty in E]|by left].
Qed.

Lemma gdc_start_times t now raw id :
  start_times (get_detailed_connections t now raw).2 !! id =
    if decide (id ∈ conn_id <$> raw)
    then Some (default now (start_times t !! id))
    else None.
Proof.
  unfold get_detailed_connections; cbn [snd].
  rewrite cleanup_start_times, loop_start_times. cbn [enter self].
  destruct (decide (id ∈ conn_id <$> raw)) as [Hin|Hout].
  - rewrite decide_False; [done|].
    intros [_ Hn]. apply Hn. by apply in_current_of_loop.
  - destruct (start_times t !! id) eqn:Ht; [|by case_decide].
    rewrite decide_True; [done|]. split.
    + apply elem_of_keys. rewrite loop_start_times.
      rewrite decide_False by done. cbn [enter self]. by rewrite Ht.
    + by rewrite in_current_of_loop.
Qed.

Lemma gdc_connections t now raw id :
  connections (get_detailed_connections t now raw).2 !! id =
    if decide (id ∈ conn_id <$> raw)
    then connections (self (foldl (step now) (enter t) raw)) !! id
    else if decide (is_Some (start_times t !! id)) then None
         else connections t !! id.
Proof.
  unfold get_detailed_connections; cbn [snd].
  rewrite cleanup_connections.
  destruct (decide (id ∈ conn_id <$> raw)) as [Hin|Hout].
  - rewrite decide_False; [done|].
    intros [_ Hn]. apply Hn. by apply in_current_of_loop.
  - rewrite loop_connections_absent by done. cbn [enter self].
    assert (id ∈ keys (self (foldl (step now) (enter t) raw))
            ↔ is_Some (start_times t !! id)) as Hk.
    { rewrite elem_of_keys, loop_start_times.
      by rewrite decide_False by done. }
    destruct (decide (is_Some (start_times t !! id))) as [Hs|Hs].
    + rewrite decide_True; [done|]. split; [by apply Hk|].
      by rewrite in_current_of_loop.
    + rewrite decide_False; [done|]. intros [Hi _]. by apply Hs, Hk.
Qed.

(** *** The history cap *)

Lemma build_history_capped t now conn data :
  build t now conn = Some data → history_capped data.
Proof.
  unfold build, history_capped. intros Hb.
  destruct (process_name conn); [|done]. simpl in Hb.
  destruct (start_times t !! conn_id conn); [|done]. simpl in Hb.
  destruct (Py.index0 (status conn)); [|done]. simpl in Hb.
  injection Hb as <-. simpl. apply PyFacts.slice_to_length.
Qed.

Lemma step_history_capped now s conn :
  Forall history_capped (connections_data s) → stored_capped (self s) →
  Forall history_capped (connections_data (step now s conn))
  ∧ stored_capped (self (step now s conn)).
Proof.
  intros Hout Hst.
  destruct (step_emits now s conn)
    as [[-> Hc]|(data & Hb & _ & -> & Hc)].
  - split; [done|]. intros id r. rewrite Hc. apply Hst.
  - apply build_history_capped in Hb. split.
    + apply Forall_app. split; [done|]. by apply Forall_singleton.
    + intros id r. rewrite Hc.
      destruct (decide (conn_id conn = id)) as [->|Hne].
      * rewrite lookup_insert_eq. by intros [= <-].
      * rewrite lookup_insert_ne by done. apply Hst.
Qed.

Lemma loop_history_capped now s raw :
  Forall history_capped (connections_data s) → stored_capped (self s) →
  Forall history_capped (connections_data (foldl (step now) s raw))
  ∧ stored_capped (self (foldl (step now) s raw)).
Proof.
  revert s. induction raw as [|conn raw IH]; intros s Hout Hst; [done|].
  cbn [foldl].
  destruct (step_history_capped now s conn Hout Hst). by apply IH.
Qed.

Lemma gdc_history_capped t now raw :
  stored_capped t →
  Forall history_capped (get_detailed_connections t now raw).1
  ∧ stored_capped (get_detailed_connections t now raw).2.
Proof.
  intros Hst.
  destruct (loop_history_capped now (enter t) raw) as [Hout Hst'];
    [by apply Forall_nil|done|].
  split; [done|].
  intros id r. unfold get_detailed_connections; cbn [snd].
  rewrite cleanup_connections. case_decide; [done|]. apply Hst'.
Qed.

Lemma run_history_capped t cycles :
  stored_capped t →
  Forall (Forall history_capped) (run t cycles).1
  ∧ stored_capped (run t cycles).2.
Proof.
  revert t. induction cycles as [|[now raw] cycles IH]; intros t Hst.
  - split; [by apply Forall_nil|done].
  - cbn [run fst snd].
    destruct (gdc_history_capped t now raw Hst) as [Hout Hst'].
    destruct (IH _ Hst') as [Houts Hfin].
    split; [by apply Forall_cons|done].
Qed.

(** *** Tracked identities and eviction *)

Lemma gdc_well_formed t now raw :
  well_formed t → well_formed (get_detailed_connections t now raw).2.
Proof.
  intros Hwf id [r Hr]. rewrite gdc_connections in Hr.
  rewrite gdc_start_times.
  destruct (decide (id ∈ conn_id <$> raw)); [by eexists|].
  destruct (decide (is_Some (start_times t !! id))) as [|Hn]; [done|].
  exfalso. apply Hn, Hwf. by eexists.
Qed.

Lemma run_well_formed t cycles :
  well_formed t → well_formed (run t cycles).2.
Proof.
  revert t. induction cycles as [|[now raw] cycles IH]; intros t Hwf;
    [done|].
  cbn [run snd]. by apply IH, gdc_well_formed.
Qed.

Lemma init_well_formed : well_formed init.
Proof. intros id [r Hr]. cbn in Hr. by rewrite lookup_empty in Hr. Qed.

Lemma gdc_evicts t now raw id :
  well_formed t → id ∉ conn_id <$> raw →
  untracked (get_detailed_connections t now raw).2 id.
Proof.
  intros Hwf Hid. split.
  - rewrite gdc_start_times. by rewrite decide_False by done.
  - rewrite gdc_connections. rewrite decide_False by done.
    destruct (decide (is_Some (start_times t !! id))) as [|Hn]; [done|].
    destruct (connections t !! id) eqn:E; [|done].
    exfalso. apply Hn, Hwf. by eexists.
Qed.

Lemma run_stays_untracked t cycles id :
  well_formed t → untracked t id →
  Forall (λ c : Q * list raw_conn, id ∉ conn_id <$> c.2) cycles →
  untracked (run t cycles).2 id.
Proof.
  revert t. induction cycles as [|[now raw] cycles IH];
    intros t Hwf Hun Hall; [done|].
  apply Forall_cons in Hall as [Hid Hall]. cbn [run snd].
  apply IH; [by apply gdc_well_formed|by apply gdc_evicts|done].
Qed.

(** *** A cycle does not look at identities outside its sample *)

Lemma visit_agree now t t' conn id :
  conn_id conn ≠ id → agree_off id t t' →
  visit now t conn = visit now t' conn.
Proof.
  intros Hne Hag. destruct (Hag (conn_id conn) Hne) as [Hc Hs].
  unfold visit, build; cbn [start_times connections].
  rewrite !record_start_lookup, !decide_True by done.
  by rewrite Hc, Hs.
Qed.

Lemma step_agree now s s' conn id :
  conn_id conn ≠ id →
  agree_off id (self s) (self s') →
  current_connections s = current_connections s' →
  connections_data s = connections_data s' →
  agree_off id (self (step now s conn)) (self (step now s' conn))
  ∧ current_connections (step now s conn)
    = current_connections (step now s' conn)
  ∧ connections_data (step now s conn)
    = connections_data (step now s' conn).
Proof.
  intros Hne Hag Hcur Hdata.
  assert (∀ k, k ≠ id →
            record_start now (start_times (self s)) (conn_id conn) !! k
            = record_start now (start_times (self s')) (conn_id conn) !! k)
    as Hst.
  { intros k Hk. rewrite !record_start_lookup.
    by destruct (Hag k Hk) as [_ ->]. }
  unfold step. rewrite (visit_agree now _ _ conn id Hne Hag), Hcur, Hdata.
  destruct (visit now (self s') conn) as [data|];
    [destruct (retained _ _)|]; cbn [self current_connections
      connections_data]; (split; [|done]);
    intros k Hk; cbn [connections start_times];
    (split; [|by apply Hst]); try by apply Hag.
  rewrite !lookup_insert. case_decide; [done|]. by apply Hag.
Qed.

Lemma loop_agree now s s' raw id :
  id ∉ conn_id <$> raw →
  agree_off id (self s) (self s') →
  current_connections s = current_connections s' →
  connections_data s = connections_data s' →
  agree_off id (self (foldl (step now) s raw))
    (self (foldl (step now) s' raw))
  ∧ connections_data (foldl (step now) s raw)
    = connections_data (foldl (step now) s' raw).
Proof.
  revert s s'. induction raw as [|conn raw IH];
    intros s s' Hid Hag Hcur Hdata; [done|].
  rewrite fmap_cons, not_elem_of_cons in Hid. destruct Hid as [Hne Hid].
  cbn [foldl].
  destruct (step_agree now s s' conn id) as (? & ? & ?); try done.
  by apply IH.
Qed.

Lemma forget_agree id t : agree_off id t (forget id t).
Proof.
  intros k Hk. unfold forget; cbn [connections start_times].
  by rewrite !lookup_delete_ne.
Qed.

Lemma tracker_eq t t' :
  connections t = connections t' → start_times t = start_times t' →
  t = t'.
Proof. destruct t, t'; simpl; by intros -> ->. Qed.

(** A cycle whose sample lacks [id] ends exactly as if [id] had never
    been tracked. *)
Lemma gdc_forget t now raw id :
  well_formed t → id ∉ conn_id <$> raw →
  get_detailed_connections t now raw
  = get_detailed_connections (forget id t) now raw.
Proof.
  intros Hwf Hid.
  destruct (loop_agree now (enter t) (enter (forget id t)) raw id)
    as [Hag Hdata]; [done|apply forget_agree|done|done|].
  apply injective_projections; [done|].
  apply tracker_eq; apply map_eq; intros k.
  - rewrite !gdc_connections.
    destruct (decide (k ∈ conn_id <$> raw)) as [Hk|Hk].
    + apply Hag. by intros ->.
    + unfold forget; cbn [connections start_times].
      destruct (decide (k = id)) as [->|Hne].
      * rewrite !lookup_delete_eq.
        rewrite (decide_False (P := is_Some None)) by by intros [? ?].
        destruct (decide (is_Some (start_times t !! id))) as [|Hn];
          [done|].
        destruct (connections t !! id) eqn:E; [|done].
        exfalso. apply Hn, Hwf. by eexists.
      * by rewrite !lookup_delete_ne.
  - rewrite !gdc_start_times.
    destruct (decide (k ∈ conn_id <$> raw)) as [Hk|Hk]; [|done].
    unfold forget; cbn [start_times].
    rewrite lookup_delete_ne; [done|]. by intros ->.
Qed.

(** The first connection of an untracked identity in a sample. *)
Lemma visit_untracked now t conn name first :
  untracked t (conn_id conn) →
  process_name conn = Some name →
  Py.index0 (status conn) = Some first →
  ∃ data, visit now t conn = Some data
          ∧ history data = first
          ∧ duration data = round3 (now - now).
Proof.
  intros [Hs Hc] Hn Hf. unfold visit, build; cbn [start_times connections].
  rewrite record_start_lookup, decide_True by done.
  rewrite Hn, Hs, Hf, Hc; simpl.
  eexists; split; [done|]. split; [|done]. cbn [history].
  destruct (status conn) as [|a st]; [done|].
  by injection Hf as <-.
Qed.

End Tracker.

(** Three of the four cases of the specification behave as it says. *)
Example retention_cases :
  (get_detailed_connections (L := ipv4) init 0 [lan_rdp]).1 = []
  ∧ (get_detailed_connections (L := ipv4) init 0 [loopback_app]).1 = []
  ∧ orig_p <$> (get_detailed_connections (L := ipv4) init 0 [public_https]).1
    = [443].
Proof. by vm_compute. Qed.

(** C1 (the code departs from the claim).  The claim: a sampled connection
    is emitted and stored iff its local address is not local and its local
    port is not 3389, so that a public-address connection with local port
    3389 is excluded.  The code: the connection from 93.184.216.34:3389, a
    public address, is returned by the cycle and stored by the tracker, for
    the condition of line 89 never looks at the port. *)
Theorem public_rdp_connection_is_emitted :
  let r := get_detailed_connections (L := ipv4) init 0 [public_rdp] in
  is_local_address (L := ipv4) (ip (laddr public_rdp)) = false
  ∧ port (laddr public_rdp) = 3389
  ∧ (orig_h <$> r.1, orig_p <$> r.1) = (["93.184.216.34"], [3389])
  ∧ orig_p <$> (connections r.2 !! conn_id public_rdp) = Some 3389
  ∧ ∀ is_local p, retained is_local p = negb is_local.
Proof. repeat split; try by vm_compute. apply retained_not_local. Qed.

(** C3, as the specification has it, fails: the connection from
    192.168.1.5:3389 is rejected by the filter, yet after the cycle the
    duration-start map has an entry for its identity that it did not have
    before. *)
Lemma rejected_connection_start_is_stored :
  ¬ (∀ conn, conn ∈ [lan_rdp] →
       retained (is_local_address (L := ipv4) (ip (laddr conn)))
         (port (laddr conn)) = false →
       let t' := (get_detailed_connections (L := ipv4) init 5 [lan_rdp]).2 in
       connections t' !! conn_id conn = connections init !! conn_id conn
       ∧ start_times t' !! conn_id conn = start_times init !! conn_id conn).
Proof.
  intros Hclaim.
  destruct (Hclaim lan_rdp) as [_ Hstart]; [by constructor|by vm_compute|].
  vm_compute in Hstart. discriminate Hstart.
Qed.

(** C3 (amended).  A sampled connection that the filter rejects writes
    nothing to the record map and emits nothing; it does record the cycle's
    clock as the duration start of its identity when the identity has none.
    Over the whole cycle, when every sampled connection of that identity is
    rejected, the stored record of the identity is unchanged, and its
    duration start is the old one, or the cycle's clock if there was none. *)
Theorem rejected_connection_frame {L : Lib} (t : ConnectionTracker)
    (now : Q) (raw : list raw_conn) (conn : raw_conn) :
  conn ∈ raw →
  retained (is_local_address (ip (laddr conn))) (port (laddr conn)) = false →
  (∀ c, c ∈ raw → conn_id c = conn_id conn →
        retained (is_local_address (ip (laddr c))) (port (laddr c)) = false) →
  let t' := (get_detailed_connections t now raw).2 in
  (∀ s, connections (self (step now s conn)) = connections (self s)
        ∧ connections_data (step now s conn) = connections_data s
        ∧ start_times (self (step now s conn))
          = record_start now (start_times (self s)) (conn_id conn))
  ∧ connections t' !! conn_id conn = connections t !! conn_id conn
  ∧ start_times t' !! conn_id conn
    = Some (default now (start_times t !! conn_id conn)).
Proof.
  intros Hin Hrej Hall t'.
  assert (conn_id conn ∈ conn_id <$> raw) as Hid
    by by apply list_elem_of_fmap_2.
  split; [|split].
  - intros s. rewrite retained_not_local in Hrej.
    apply negb_false_iff in Hrej.
    destruct (step_rejected now s conn Hrej) as [-> ->].
    by rewrite step_start_times.
  - unfold t'. rewrite gdc_connections, decide_True by done.
    apply loop_connections_rejected. intros c Hc Hcid.
    specialize (Hall c Hc Hcid). rewrite retained_not_local in Hall.
    by apply negb_false_iff in Hall.
  - unfold t'. by rewrite gdc_start_times, decide_True by done.
Qed.

Lemma rejected_connection_frame_witness :
  lan_rdp ∈ [lan_rdp]
  ∧ retained (is_local_address (L := ipv4) (ip (laddr lan_rdp)))
      (port (laddr lan_rdp)) = false
  ∧ connections (get_detailed_connections (L := ipv4) init 5 [lan_rdp]).2
      !! conn_id lan_rdp = connections init !! conn_id lan_rdp
  ∧ start_times (get_detailed_connections (L := ipv4) init 5 [lan_rdp]).2
      !! conn_id lan_rdp
    = Some (default 5%Q (start_times init !! conn_id lan_rdp)).
Proof.
  split; [by constructor|]. split; [by vm_compute|].
  apply (rejected_connection_frame (L := ipv4) init 5 [lan_rdp] lan_rdp).
  - by constructor.
  - by vm_compute.
  - intros c Hc _. apply list_elem_of_singleton in Hc. subst c. by vm_compute.
Defined.

(** C5.  Over any number of cycles of a fresh tracker, every record a cycle
    returns and every record the tracker holds afterwards has a history of
    at most 20 characters. *)
Theorem history_never_exceeds_cap {L : Lib} (cycles : list (Q * list raw_conn)) :
  (∀ out r, out ∈ (run init cycles).1 → r ∈ out →
            (String.length (history r) ≤ 20)%nat)
  ∧ (∀ id r, connections (run init cycles).2 !! id = Some r →
             (String.length (history r) ≤ 20)%nat).
Proof.
  destruct (run_history_capped init cycles) as [Houts Hstored].
  { intros id r Hr. cbn in Hr. by rewrite lookup_empty in Hr. }
  split; [|exact Hstored].
  intros out r Hout Hr.
  rewrite Forall_forall in Houts. specialize (Houts out Hout).
  rewrite Forall_forall in Houts. by apply Houts.
Qed.

(** C6.  Take a tracker reached from a fresh one, an identity [id] it
    tracks, and a cycle whose sample lacks [id].  After that cycle the
    stored record and the duration start of [id] are both gone, and the cycle
    returns and leaves exactly what it would if [id] had never been tracked.
    If, after further cycles without it, [id] appears again in a sample,
    its first connection there gets the clock of that cycle as duration
    start, which is still its duration start when the cycle ends, and the
    record built for it has a history of one character, the first of its
    current status, and the duration of a start at that clock. *)
Theorem evicted_identity_returns_fresh {L : Lib}
    (past : list (Q * list raw_conn)) (id : string)
    (now : Q) (raw : list raw_conn)
    (gap : list (Q * list raw_conn))
    (now' : Q) (before : list raw_conn) (conn : raw_conn)
    (after : list raw_conn) (name first : string) :
  let t := (run init past).2 in
  let t1 := (get_detailed_connections t now raw).2 in
  let t2 := (run t1 gap).2 in
  let s := foldl (step now') (enter t2) before in
  tracked t id →
  id ∉ conn_id <$> raw →
  Forall (λ c : Q * list raw_conn, id ∉ conn_id <$> c.2) gap →
  id ∉ conn_id <$> before →
  conn_id conn = id →
  process_name conn = Some name →
  Py.index0 (status conn) = Some first →
  (connections t1 !! id = None ∧ start_times t1 !! id = None)
  ∧ get_detailed_connections t now raw
    = get_detailed_connections (forget id t) now raw
  ∧ start_times (self (step now' s conn)) !! id = Some now'
  ∧ start_times
      (get_detailed_connections t2 now' (before ++ conn :: after)).2 !! id
    = Some now'
  ∧ ∃ data, visit now' (self s) conn = Some data
            ∧ history data = first
            ∧ duration data = round3 (now' - now').
Proof.
  intros t t1 t2 s Htracked Hraw Hgap Hbefore Hid Hname Hfirst.
  assert (well_formed t) as Hwf by apply run_well_formed, init_well_formed.
  assert (untracked t1 id) as Hun1 by by apply gdc_evicts.
  assert (untracked t2 id) as [Hs2 Hc2].
  { apply run_stays_untracked; [by apply gdc_well_formed|done|done]. }
  assert (untracked (self s) id) as Hun.
  { split.
    - unfold s. rewrite loop_start_times. by rewrite decide_False by done.
    - unfold s. by rewrite loop_connections_absent by done. }
  split; [by destruct Hun1|]. split; [by apply gdc_forget|].
  split; [|split].
  - rewrite step_start_times, record_start_lookup, decide_True by done.
    by destruct Hun as [-> _].
  - rewrite gdc_start_times, decide_True, Hs2; [done|].
    rewrite fmap_app, fmap_cons, Hid. apply elem_of_app. right. by left.
  - subst id. by apply (visit_untracked now' (self s) conn name first).
Qed.

Lemma evicted_identity_returns_fresh_witness :
  let id := conn_id public_https in
  let t := (run (L := ipv4) init [(1%Q, [public_https])]).2 in
  let t1 := (get_detailed_connections (L := ipv4) t 3 []).2 in
  tracked t id
  ∧ (connections t1 !! id = None ∧ start_times t1 !! id = None)
  ∧ start_times
      (get_detailed_connections (L := ipv4) t1 5 ([] ++ public_https :: [])).2
      !! id = Some 5%Q
  ∧ ∃ data, visit (L := ipv4) 5 t1 public_https = Some data
            ∧ history data = "E"
            ∧ duration data = round3 (5 - 5).
Proof.
  intros id t t1.
  assert (tracked t id) as Htracked.
  { left. exists 1%Q. by vm_compute. }
  split; [exact Htracked|].
  destruct (evicted_identity_returns_fresh (L := ipv4)
              [(1%Q, [public_https])] id 3 [] [] 5 [] public_https []
              "chrome" "E") as (Hgone & _ & _ & Hstart & Hbuilt).
  - exact Htracked.
  - apply not_elem_of_nil.
  - apply Forall_nil_2.
  - apply not_elem_of_nil.
  - reflexivity.
  - reflexivity.
  - reflexivity.
  - split; [exact Hgone|]. split; [exact Hstart|exact Hbuilt].
Defined.

(** *** What a cycle returns *)

Section Cycle.
Context {L : Lib}.

Implicit Types (t : ConnectionTracker) (s : cycle) (conn : raw_conn)
  (id : string) (now : Q) (raw : list raw_conn).

(** The record that lines 46-87 build, field by field. *)
Lemma visit_inv now t conn data :
  visit now t conn = Some data →
  ∃ name first,
    process_name conn = Some name
    ∧ Py.index0 (status conn) = Some first
    ∧ ts data = now_iso conn
    ∧ uid data = new_uid conn
    ∧ orig_h data = ip (laddr conn)
    ∧ orig_p data = port (laddr conn)
    ∧ conn_state data = status conn
    ∧ service data = name
    ∧ local_orig data = is_local_address (ip (laddr conn))
    ∧ duration data
      = round3 (now - default now (start_times t !! conn_id conn))
    ∧ history data
      = Py.slice_to 20
          match connections t !! conn_id conn with
          | Some old => history old +:+ first
          | None => first
          end.
Proof.
  unfold visit, build; cbn [start_times connections].
  rewrite record_start_lookup, decide_True by done.
  destruct (process_name conn) as [name|]; [|done]. cbn [mbind option_bind].
  destruct (Py.index0 (status conn)) as [first|]; [|done].
  cbn [mbind option_bind]. intros [= <-]. by exists name, first.
Qed.

Lemma visit_is_Some now t conn :
  is_Some (visit now t conn) ↔ processed conn = true.
Proof.
  unfold processed. split.
  - intros [data Hv]. apply visit_inv in Hv as (? & ? & -> & -> & _). done.
  - unfold visit, build; cbn [start_times connections].
    rewrite record_start_lookup, decide_True by done.
    destruct (process_name conn); [|done].
    destruct (Py.index0 (status conn)); [|done]. by eexists.
Qed.

(** An iteration on a connection that does not emit. *)
Lemma step_silent now s conn :
  emits conn = false →
  connections (self (step now s conn)) = connections (self s)
  ∧ connections_data (step now s conn) = connections_data s.
Proof.
  intros He.
  destruct (step_emits now s conn) as [[? ?]|(data & Hv & Hl & _)]; [done|].
  exfalso. unfold emits in He. rewrite Hl in He.
  assert (processed conn = true) as Hp
    by (apply (visit_is_Some now (self s)); by eexists).
  by rewrite Hp in He.
Qed.

(** An iteration on a connection that emits. *)
Lemma step_loud now s conn :
  emits conn = true →
  ∃ data, visit now (self s) conn = Some data
          ∧ describes conn data
          ∧ connections_data (step now s conn)
            = (connections_data s ++ [data])%list
          ∧ connections (self (step now s conn))
            = <[conn_id conn := data]> (connections (self s)).
Proof.
  intros He. unfold emits in He. apply andb_prop in He as [Hp Hl].
  apply negb_true_iff in Hl.
  apply (visit_is_Some now (self s)) in Hp as [data Hv]. exists data.
  destruct (step_emits now s conn)
    as [[Hd _]|(data' & Hv' & _ & Hd & Hc)].
  - exfalso. unfold step in Hd. rewrite Hv, retained_not_local, Hl in Hd.
    cbn in Hd. apply (f_equal length) in Hd. rewrite length_app in Hd.
    cbn in Hd. lia.
  - rewrite Hv in Hv'. injection Hv' as <-. split; [done|].
    split; [|done].
    destruct (visit_inv _ _ _ _ Hv)
      as (name & first & Hn & _ & ? & ? & ? & ? & ? & Hs & Hlo & _).
    unfold describes. rewrite Hn, Hs, Hlo, Hl. done.
Qed.

Lemma loop_output now s raw :
  ∃ out, connections_data (foldl (step now) s raw)
         = (connections_data s ++ out)%list
         ∧ Forall2 describes (List.filter emits raw) out.
Proof.
  revert s. induction raw as [|conn raw IH]; intros s; cbn [foldl List.filter].
  - exists []. split; [by rewrite app_nil_r|constructor].
  - destruct (IH (step now s conn)) as (out & Hout & Hall).
    destruct (emits conn) eqn:He.
    + destruct (step_loud now s conn He) as (data & _ & Hd & Hdata & _).
      exists (data :: out). split; [|by constructor].
      by rewrite Hout, Hdata, <- app_assoc.
    + destruct (step_silent now s conn He) as [_ Hdata].
      exists out. split; [|done]. by rewrite Hout, Hdata.
Qed.

Lemma output_describes t now raw :
  Forall2 describes (List.filter emits raw)
    (get_detailed_connections t now raw).1.
Proof.
  destruct (loop_output now (enter t) raw) as (out & Hout & Hall).
  cbn in Hout. unfold get_detailed_connections; cbn [fst]. by rewrite Hout.
Qed.


(** *** Connections that emit nothing leave the returned records alone *)

Lemma alike_refl now s : alike now s s.
Proof. by repeat split. Qed.

Lemma visit_alike now s s' conn :
  alike now s s' → visit now (self s) conn = visit now (self s') conn.
Proof.
  intros (Hc & _ & Hs). unfold visit, build; cbn [start_times connections].
  rewrite !record_start_lookup, !decide_True by done.
  by rewrite Hc, (Hs (conn_id conn)).
Qed.

Lemma record_start_default now (starts : gmap string Q) id k :
  default now (record_start now starts id !! k) = default now (starts !! k).
Proof. rewrite record_start_lookup. by case_decide. Qed.

Lemma step_alike now s s' conn :
  alike now s s' → alike now (step now s conn) (step now s' conn).
Proof.
  intros Hal. pose proof Hal as (Hc & Hd & Hs).
  unfold step. rewrite (visit_alike now s s' conn Hal).
  destruct (visit now (self s') conn) as [data|];
    [destruct (retained _ _)|];
    (split; [|split]); cbn [self connections start_times connections_data];
    try (by rewrite ?Hc, ?Hd);
    intros k; by rewrite !record_start_default.
Qed.

Lemma step_alike_silent now s s' conn :
  emits conn = false → alike now s s' → alike now (step now s conn) s'.
Proof.
  intros He (Hc & Hd & Hs).
  destruct (step_silent now s conn He) as [Hc' Hd'].
  split; [by rewrite Hc'|]. split; [by rewrite Hd'|].
  intros k. by rewrite step_start_times, record_start_default.
Qed.

Lemma loop_alike now s s' raw :
  alike now s s' →
  alike now (foldl (step now) s raw)
    (foldl (step now) s' (List.filter emits raw)).
Proof.
  revert s s'. induction raw as [|conn raw IH]; intros s s' Hal; [done|].
  cbn [foldl List.filter]. destruct (emits conn) eqn:He.
  - cbn [foldl]. by apply IH, step_alike.
  - by apply IH, step_alike_silent.
Qed.

(** X2.  A sampled connection that emits nothing, because its processing
    raises or because its local address is local, changes no returned
    record: the call returns what it returns on the sample without those
    connections. *)
Theorem silent_connections_change_no_record t now raw :
  (get_detailed_connections t now raw).1
  = (get_detailed_connections t now (List.filter emits raw)).1.
Proof.
  unfold get_detailed_connections; cbn [fst].
  by destruct (loop_alike now (enter t) (enter t) raw (alike_refl _ _))
    as (_ & ? & _).
Qed.

(** *** What the tracker holds after a call *)

Lemma size_list_to_set_le (l : list string) :
  (size (list_to_set (C := gset string) l) ≤ length l)%nat.
Proof.
  induction l as [|x l IH]; [by rewrite list_to_set_nil, size_empty|].
  rewrite list_to_set_cons, size_union_alt, size_singleton. cbn [length].
  assert (size (list_to_set (C := gset string) l ∖ {[x]})
          ≤ size (list_to_set (C := gset string) l))%nat
    by (apply subseteq_size, subseteq_difference_l; done).
  lia.
Qed.

(** X3.  A tracker that started fresh holds, after a call, a duration start
    for exactly the identities of that call's sample and stored records for
    identities of that sample only: it never holds more entries than the
    last sample has connections. *)
Theorem tracker_holds_only_the_sample
    (past : list (Q * list raw_conn)) now raw :
  let t' := (get_detailed_connections (run init past).2 now raw).2 in
  dom (start_times t') = list_to_set (conn_id <$> raw)
  ∧ dom (connections t') ⊆ dom (start_times t')
  ∧ (size (start_times t') ≤ length raw)%nat
  ∧ (size (connections t') ≤ length raw)%nat.
Proof.
  intros t'.
  assert (dom (start_times t') = list_to_set (conn_id <$> raw)) as Hdom.
  { apply set_eq. intros id.
    rewrite elem_of_dom, elem_of_list_to_set. unfold t'.
    rewrite gdc_start_times. by case_decide. }
  assert (dom (connections t') ⊆ dom (start_times t')) as Hsub.
  { intros id. rewrite !elem_of_dom.
    apply gdc_well_formed, run_well_formed, init_well_formed. }
  assert (size (start_times t') ≤ length raw)%nat as Hsize.
  { rewrite <- size_dom, Hdom.
    etrans; [apply size_list_to_set_le|]. by rewrite length_fmap. }
  split; [done|]. split; [done|]. split; [done|].
  etrans; [|exact Hsize]. rewrite <- !size_dom. by apply subseteq_size.
Qed.

(** *** Duration starts and durations *)

Lemma run_keeps_start t (cycles : list (Q * list raw_conn)) id (start : Q) :
  start_times t !! id = Some start →
  Forall (λ c : Q * list raw_conn, id ∈ conn_id <$> c.2) cycles →
  start_times (run t cycles).2 !! id = Some start.
Proof.
  revert t. induction cycles as [|[now raw] cycles IH]; intros t Hs Hall;
    [done|].
  apply Forall_cons in Hall as [Hid Hall]. cbn [run snd]. apply IH; [|done].
  rewrite gdc_start_times, decide_True by done. by rewrite Hs.
Qed.

(** X4.  The duration start of an identity does not move as long as the
    identity is in every sample: over any number of such cycles, and within
    a cycle whatever else is sampled, it stays what it was. *)
Theorem start_stays_while_sampled t (cycles : list (Q * list raw_conn))
    id (start : Q) now raw :
  start_times t !! id = Some start →
  Forall (λ c : Q * list raw_conn, id ∈ conn_id <$> c.2) cycles →
  start_times (run t cycles).2 !! id = Some start
  ∧ start_times
      (self (foldl (step now) (enter (run t cycles).2) raw)) !! id
    = Some start.
Proof.
  intros Hs Hall.
  pose proof (run_keeps_start t cycles id start Hs Hall) as Hrun.
  split; [done|]. rewrite loop_start_times. cbn [enter self].
  rewrite Hrun. by case_decide.
Qed.

Lemma round_half_even_between (q : Q) :
  round_half_even q = Qfloor q ∨ round_half_even q = (Qfloor q + 1)%Z.
Proof. unfold round_half_even. by repeat case_match; auto. Qed.

Lemma round_half_even_mono (q q' : Q) :
  (q <= q')%Q → (round_half_even q ≤ round_half_even q')%Z.
Proof.
  intros Hq. pose proof (Qfloor_resp_le q q' Hq) as Hf.
  destruct (Z.eq_dec (Qfloor q) (Qfloor q')) as [E|E].
  - unfold round_half_even. rewrite <- E.
    destruct (Qcompare_spec (q - inject_Z (Qfloor q)) (1 # 2)) as [H1|H1|H1],
      (Qcompare_spec (q' - inject_Z (Qfloor q)) (1 # 2)) as [H2|H2|H2];
      try (destruct (Z.even (Qfloor q))); try lia; exfalso; lra.
  - destruct (round_half_even_between q) as [->| ->],
      (round_half_even_between q') as [->| ->]; lia.
Qed.

Lemma round3_mono (q q' : Q) : (q <= q')%Q → (round3 q <= round3 q')%Q.
Proof.
  intros Hq. unfold round3. apply Qmult_le_compat_r; [|done].
  rewrite <- Zle_Qle. apply round_half_even_mono.
  by apply Qmult_le_compat_r.
Qed.

(** X5.  While an identity keeps its duration start, its durations are not
    negative and do not go down, as long as the clock does not go back:
    the record built at a later clock has a duration at least that of the
    record built at an earlier one. *)
Theorem durations_do_not_decrease (t t' : ConnectionTracker) id (start : Q)
    (now now' : Q) (conn conn' : raw_conn) (data data' : connection_data) :
  start_times t !! id = Some start →
  start_times t' !! id = Some start →
  conn_id conn = id → conn_id conn' = id →
  visit now t conn = Some data →
  visit now' t' conn' = Some data' →
  (start <= now)%Q → (now <= now')%Q →
  duration data = round3 (now - start)
  ∧ duration data' = round3 (now' - start)
  ∧ (0 <= duration data)%Q
  ∧ (duration data <= duration data')%Q.
Proof.
  intros Hs Hs' <- Hid Hv Hv' Hstart Hnow.
  destruct (visit_inv _ _ _ _ Hv)
    as (_ & _ & _ & _ & _ & _ & _ & _ & _ & _ & _ & Hd & _).
  destruct (visit_inv _ _ _ _ Hv')
    as (_ & _ & _ & _ & _ & _ & _ & _ & _ & _ & _ & Hd' & _).
  rewrite Hs in Hd. rewrite Hid, Hs' in Hd'. cbn in Hd, Hd'.
  rewrite Hd, Hd'. split; [done|]. split; [done|]. split.
  - apply (Qle_trans _ (round3 0)); [done|]. apply round3_mono. lra.
  - apply round3_mono. lra.
Qed.

(** X6.  The history of a tracked identity only grows at its end and only
    up to 20 characters: a record built over a stored one has the stored
    history as a prefix, one character more if the stored history was
    shorter than 20, and the very same history if it was 20 long, so that
    the status letters after the twentieth are dropped. *)
Theorem history_keeps_first_twenty t now conn
    (old data : connection_data) :
  connections t !! conn_id conn = Some old →
  (String.length (history old) ≤ 20)%nat →
  visit now t conn = Some data →
  (∃ rest, history data = history old +:+ rest)
  ∧ String.length (history data)
    = Nat.min 20 (String.length (history old) + 1)
  ∧ (String.length (history old) = 20%nat → history data = history old).
Proof.
  intros Hold Hcap Hv.
  destruct (visit_inv _ _ _ _ Hv)
    as (_ & first & _ & Hf & _ & _ & _ & _ & _ & _ & _ & _ & Hh).
  rewrite Hold in Hh. pose proof (PyFacts.index0_length _ _ Hf) as Hlen.
  rewrite Hh. split; [|split].
  - eexists. by apply PyFacts.slice_to_append.
  - by rewrite PyFacts.slice_to_min, PyFacts.length_append, Hlen.
  - intros H20. rewrite PyFacts.slice_to_append by done.
    rewrite H20, Nat.sub_diag.
    replace (Py.slice_to 0 first) with "" by (by destruct first).
    clear. induction (history old) as [|a h IH]; [done|].
    change (String a h +:+ "") with (String a (h +:+ "")). by rewrite IH.
Qed.

(** *** Fields that no cycle fills in *)

Lemma visit_counters now t conn data :
  visit now t conn = Some data →
  orig_bytes data = 0 ∧ orig_pkts data = 0.
Proof.
  unfold visit, build; cbn [start_times connections].
  rewrite record_start_lookup, decide_True by done.
  destruct (process_name conn) as [name|]; [|done]. cbn [mbind option_bind].
  destruct (Py.index0 (status conn)) as [first|]; [|done].
  cbn [mbind option_bind]. by intros [= <-].
Qed.

Lemma loop_counters now s raw :
  Forall (λ d, orig_bytes d = 0 ∧ orig_pkts d = 0) (connections_data s) →
  Forall (λ d, orig_bytes d = 0 ∧ orig_pkts d = 0)
    (connections_data (foldl (step now) s raw)).
Proof.
  revert s. induction raw as [|conn raw IH]; intros s Hs; [done|].
  cbn [foldl]. apply IH.
  destruct (step_emits now s conn) as [[-> _]|(data & Hv & _ & -> & _)];
    [done|].
  apply Forall_app. split; [done|].
  apply Forall_singleton. by eapply visit_counters.
Qed.

Lemma output_counters t now raw :
  Forall (λ d, orig_bytes d = 0 ∧ orig_pkts d = 0)
    (get_detailed_connections t now raw).1.
Proof.
  unfold get_detailed_connections; cbn [fst]. by apply loop_counters.
Qed.

End Cycle.

(** *** Identities tell endpoint pairs apart *)

Lemma append_cons (a : ascii) (s1 s2 : string) :
  String a s1 +:+ s2 = String a (s1 +:+ s2).
Proof. done. Qed.

Lemma append_assoc (s1 s2 s3 : string) :
  s1 +:+ (s2 +:+ s3) = (s1 +:+ s2) +:+ s3.
Proof.
  induction s1 as [|a s1 IH]; [done|]. by rewrite !append_cons, IH.
Qed.

Lemma append_cons_assoc (s1 : string) (a : ascii) (s2 s3 : string) :
  s1 +:+ String a (s2 +:+ s3) = (s1 +:+ String a s2) +:+ s3.
Proof. by rewrite <- append_cons, append_assoc. Qed.

Lemma occurs_append (c : ascii) (s1 s2 : string) :
  occurs c (s1 +:+ s2) ↔ occurs c s1 ∨ occurs c s2.
Proof.
  induction s1 as [|a s1 IH].
  - change ("" +:+ s2) with s2. cbn. tauto.
  - rewrite append_cons. cbn. rewrite IH. tauto.
Qed.

(** A string is cut in one way at the first occurrence of a character. *)
Lemma cut_first (c : ascii) (a a' b b' : string) :
  ¬ occurs c a → ¬ occurs c a' →
  a +:+ String c b = a' +:+ String c b' → a = a' ∧ b = b'.
Proof.
  revert a'. induction a as [|x a IH]; intros [|x' a'] Ha Ha' E.
  - by injection E.
  - rewrite append_cons in E. injection E as -> _. cbn in Ha'. tauto.
  - rewrite append_cons in E. injection E as -> _. cbn in Ha. tauto.
  - rewrite !append_cons in E. injection E as -> E. cbn in Ha, Ha'.
    destruct (IH a') as [-> ->]; [tauto|tauto|done|done].
Qed.

(** And in one way at the last. *)
Lemma cut_last (c : ascii) (a a' b b' : string) :
  ¬ occurs c b → ¬ occurs c b' →
  a +:+ String c b = a' +:+ String c b' → a = a' ∧ b = b'.
Proof.
  revert a'. induction a as [|x a IH]; intros [|x' a'] Hb Hb' E.
  - by injection E.
  - rewrite append_cons in E. injection E as _ E. exfalso. apply Hb.
    rewrite E. apply occurs_append. right. by left.
  - rewrite append_cons in E. injection E as _ E. exfalso. apply Hb'.
    rewrite <- E. apply occurs_append. right. by left.
  - rewrite !append_cons in E. injection E as -> E.
    destruct (IH a') as [-> ->]; done.
Qed.

(** The characters of a printed integer are digits, after a minus sign
    when it is negative. *)
Lemma pretty_N_go_digits (x : N) (s : string) (c : ascii) :
  occurs c (pretty_N_go x s) → occurs c "0123456789" ∨ occurs c s.
Proof.
  revert s. induction (N.lt_wf_0 x) as [x _ IH]; intros s Hc.
  assert (x = 0 ∨ 0 < x)%N as [->|Hx] by lia.
  - right. by rewrite pretty_N_go_0 in Hc.
  - rewrite pretty_N_go_step in Hc by done.
    apply IH in Hc as [?|Hc]; [by left| |by apply N.div_lt].
    destruct Hc as [->|?]; [left|by right].
    unfold pretty_N_char. repeat case_match; cbn; tauto.
Qed.

Lemma pretty_N_digits (x : N) (c : ascii) :
  occurs c (pretty x) → occurs c "0123456789".
Proof.
  unfold pretty, pretty_N. case_decide.
  - cbn. tauto.
  - intros Hc. by apply pretty_N_go_digits in Hc as [?|?].
Qed.

Lemma pretty_Z_digits (z : Z) (c : ascii) :
  occurs c (pretty z) → occurs c "-0123456789".
Proof.
  destruct z as [|p|p]; unfold pretty, pretty_Z.
  - cbn. tauto.
  - intros Hc. right. by apply (pretty_N_digits (N.pos p)).
  - rewrite occurs_append. intros [Hc|Hc].
    + cbn in Hc. left. tauto.
    + right. by apply (pretty_N_digits (N.pos p)).
Qed.

Lemma pretty_Z_digits_nonneg (z : Z) (c : ascii) :
  0 ≤ z → occurs c (pretty z) → occurs c "0123456789".
Proof.
  destruct z as [|p|p]; unfold pretty, pretty_Z; [|intros _|lia].
  - cbn. tauto.
  - apply (pretty_N_digits (N.pos p)).
Qed.

Lemma str_of_int_no_colon (z : Z) : ¬ occurs ":" (Py.str_of_int z).
Proof.
  intros Hc. apply pretty_Z_digits in Hc. cbn in Hc.
  repeat destruct Hc as [Hc|Hc]; done.
Qed.

Lemma str_of_int_no_dash (z : Z) : 0 ≤ z → ¬ occurs "-" (Py.str_of_int z).
Proof.
  intros Hz Hc. apply pretty_Z_digits_nonneg in Hc; [|done]. cbn in Hc.
  repeat destruct Hc as [Hc|Hc]; done.
Qed.

Lemma str_of_int_not_None (z : Z) : Py.str_of_int z ≠ "None".
Proof.
  intros E. assert (occurs "N" (Py.str_of_int z)) as Hc
    by (rewrite E; by left).
  apply pretty_Z_digits in Hc. cbn in Hc.
  repeat destruct Hc as [Hc|Hc]; done.
Qed.

(** X7.  Identities tell endpoint pairs apart: two sampled connections
    whose local addresses hold no minus sign and whose local ports are not
    negative have the same identity only if they have the same local and
    the same remote endpoint. *)
Theorem conn_id_injective (conn conn' : raw_conn) :
  ¬ occurs "-" (ip (laddr conn)) →
  ¬ occurs "-" (ip (laddr conn')) →
  0 ≤ port (laddr conn) →
  0 ≤ port (laddr conn') →
  conn_id conn = conn_id conn' →
  laddr conn = laddr conn' ∧ raddr conn = raddr conn'.
Proof.
  intros Hip Hip' Hp Hp' E. unfold conn_id in E.
  destruct conn as [[lip lport] r ? ? ? ? ?],
    conn' as [[lip' lport'] r' ? ? ? ? ?]; cbn in *.
  set (R := match r with Some a => ip a | None => "None" end) in E.
  set (P := match r with
            | Some a => Py.str_of_int (port a)
            | None => "None"
            end) in E.
  set (R' := match r' with Some a => ip a | None => "None" end) in E.
  set (P' := match r' with
             | Some a => Py.str_of_int (port a)
             | None => "None"
             end) in E.
  change (lip +:+ String ":" (Py.str_of_int lport +:+ String "-" (R +:+ String ":" P))
          = lip' +:+ String ":" (Py.str_of_int lport' +:+ String "-" (R' +:+ String ":" P')))
    in E.
  rewrite (append_cons_assoc lip), (append_cons_assoc lip') in E.
  assert (∀ l p, ¬ occurs "-" l → 0 ≤ p →
            ¬ occurs "-" (l +:+ String ":" (Py.str_of_int p))) as Hleft.
  { intros l p Hl Hp0. rewrite occurs_append. intros [?|[Hc|Hc]]; [done..|].
    by apply str_of_int_no_dash in Hc. }
  apply cut_first in E as [El Er]; [|by apply Hleft..].
  apply cut_last in El as [-> El]; [|apply str_of_int_no_colon..].
  apply (inj pretty) in El as ->.
  split; [done|].
  assert (¬ occurs ":" P ∧ ¬ occurs ":" P') as [HP HP'].
  { unfold P, P'. split; case_match; try apply str_of_int_no_colon;
      cbn; intros Hc; repeat destruct Hc as [Hc|Hc]; done. }
  apply cut_last in Er as [ER EP]; [|done..].
  unfold R, R', P, P' in *. destruct r as [[a p]|], r' as [[a' p']|];
    cbn in *.
  - apply (inj pretty) in EP. by subst.
  - by apply str_of_int_not_None in EP.
  - symmetry in EP. by apply str_of_int_not_None in EP.
  - done.
Qed.

Lemma conn_id_injective_witness :
  ¬ occurs "-" (ip (laddr public_https))
  ∧ 0 ≤ port (laddr public_https)
  ∧ (∀ conn', ¬ occurs "-" (ip (laddr conn')) → 0 ≤ port (laddr conn') →
              conn_id public_https = conn_id conn' →
              laddr public_https = laddr conn'
              ∧ raddr public_https = raddr conn').
Proof.
  assert (¬ occurs "-" (ip (laddr public_https))) as Hip.
  { cbn. intros Hc. repeat destruct Hc as [Hc|Hc]; done. }
  assert (0 ≤ port (laddr public_https)) as Hp by (cbn; lia).
  split; [exact Hip|]. split; [exact Hp|].
  intros conn' Hip' Hp'.
  exact (conn_id_injective public_https conn' Hip Hip' Hp Hp').
Defined.

(** *** Witnesses for the cycle properties *)

Lemma start_stays_while_sampled_witness :
  let id := conn_id public_https in
  let t := (run (L := ipv4) init [(1%Q, [public_https])]).2 in
  start_times t !! id = Some 1%Q
  ∧ start_times
      (run (L := ipv4) t [(2%Q, [public_https]);
                          (3%Q, [lan_rdp; public_https])]).2 !! id
    = Some 1%Q.
Proof.
  intros id t.
  assert (start_times t !! id = Some 1%Q) as Hs by (vm_compute; reflexivity).
  split; [exact Hs|].
  apply (start_stays_while_sampled (L := ipv4) t
           [(2%Q, [public_https]); (3%Q, [lan_rdp; public_https])]
           id 1 0 [] Hs).
  repeat constructor.
Defined.

Lemma durations_do_not_decrease_witness :
  let t := (run (L := ipv4) init [(1%Q, [public_https])]).2 in
  ∃ data data',
    visit (L := ipv4) 2 t public_https = Some data
    ∧ visit (L := ipv4) 3.5 t public_https = Some data'
    ∧ (duration data, duration data') = (1.000, 2.500)%Q
    ∧ (0 <= duration data)%Q
    ∧ (duration data <= duration data')%Q.
Proof.
  intros t.
  destruct (visit (L := ipv4) 2 t public_https) as [data|] eqn:Hv;
    [|by vm_compute in Hv].
  destruct (visit (L := ipv4) 3.5 t public_https) as [data'|] eqn:Hv';
    [|by vm_compute in Hv'].
  exists data, data'. split; [reflexivity|]. split; [reflexivity|].
  destruct (durations_do_not_decrease (L := ipv4) t t
              (conn_id public_https) 1 2 3.5 public_https public_https
              data data') as (Hd & Hd' & H0 & Hle).
  - by vm_compute.
  - by vm_compute.
  - reflexivity.
  - reflexivity.
  - exact Hv.
  - exact Hv'.
  - by vm_compute.
  - by vm_compute.
  - split; [|split; [exact H0|exact Hle]]. rewrite Hd, Hd'. by vm_compute.
Defined.

Lemma history_keeps_first_twenty_witness :
  let t := (run (L := ipv4) init [(1%Q, [public_https])]).2 in
  ∃ old data,
    connections t !! conn_id public_https = Some old
    ∧ visit (L := ipv4) 2 t public_https = Some data
    ∧ history old = "E"
    ∧ String.length (history data) = 2%nat
    ∧ ∃ rest, history data = history old +:+ rest.
Proof.
  intros t.
  destruct (connections t !! conn_id public_https) as [old|] eqn:Ho;
    [|by vm_compute in Ho].
  destruct (visit (L := ipv4) 2 t public_https) as [data|] eqn:Hv;
    [|by vm_compute in Hv].
  assert (history old = "E") as Hh
    by (vm_compute in Ho; by injection Ho as <-).
  exists old, data. split; [reflexivity|]. split; [reflexivity|].
  split; [exact Hh|].
  destruct (history_keeps_first_twenty (L := ipv4) t 2 public_https
              old data) as (Hpre & Hlen & _).
  - exact Ho.
  - rewrite Hh. cbn. lia.
  - exact Hv.
  - split; [|exact Hpre]. rewrite Hlen, Hh. reflexivity.
Defined.

(** *** The collector's sessions *)

Section Sessions.
Context {L : Lib}.

Lemma handler_loop_messages (t : ConnectionTracker) (passes : list pass) :
  stored_capped t →
  Forall (λ m,
     msg_total_connections m = length (msg_connections m)
     ∧ Forall (λ r, local_orig r = false ∧ history_capped r)
         (msg_connections m))
    (handler_loop t passes).
Proof.
  revert t. induction passes as [|p passes IH]; intros t Hcap;
    cbn [handler_loop]; [constructor|].
  destruct (pass_sent p); [|constructor].
  destruct (gdc_history_capped t (pass_clock p) (pass_sample p) Hcap)
    as [Hout Hcap'].
  constructor; [|by apply IH]. cbn. split; [done|].
  pose proof (output_describes t (pass_clock p) (pass_sample p)) as Hdesc.
  apply Forall2_Forall_r with (Q := λ r, local_orig r = false) in Hdesc.
  - rewrite Forall_forall in Hdesc, Hout. apply Forall_forall.
    intros r Hr. split; [by apply Hdesc|by apply Hout].
  - apply Forall_forall. intros conn _ r Hd. apply Hd.
Qed.

(** X8.  Every message a session delivers says how many records it
    carries, and carries only records that say their local address is not
    local and whose history has at most 20 characters; and a send that
    fails ends the session: what is delivered is what was delivered before
    it, whatever passes might have followed. *)
Theorem handler_delivers (before after : list pass) (p : pass) :
  Forall (λ m,
     msg_total_connections m = length (msg_connections m)
     ∧ Forall (λ r, local_orig r = false
                    ∧ (String.length (history r) ≤ 20)%nat)
         (msg_connections m))
    (handler (before ++ p :: after))
  ∧ (pass_sent p = false →
     handler (before ++ p :: after) = handler before).
Proof.
  split.
  - apply handler_loop_messages. intros id r Hr. cbn in Hr.
    by rewrite lookup_empty in Hr.
  - intros Hp. unfold handler. generalize init as t.
    induction before as [|q before IH]; intros t; cbn [handler_loop app].
    + by rewrite Hp.
    + destruct (pass_sent q); [|done]. by rewrite IH.
Qed.

(** In a call on a fresh tracker every duration start is the clock. *)
Lemma loop_fresh_durations now s raw :
  (∀ k v, start_times (self s) !! k = Some v → v = now) →
  Forall (λ r, duration r = round3 (now - now)) (connections_data s) →
  Forall (λ r, duration r = round3 (now - now))
    (connections_data (foldl (step now) s raw)).
Proof.
  revert s. induction raw as [|conn raw IH]; intros s Hst Hout; [done|].
  cbn [foldl]. apply IH.
  - intros k v. rewrite step_start_times, record_start_lookup.
    case_decide; [|apply Hst]. intros [= <-].
    destruct (start_times (self s) !! k) eqn:E; [|done]. by apply (Hst k).
  - destruct (step_emits now s conn) as [[-> _]|(data & Hv & _ & -> & _)];
      [done|].
    apply Forall_app. split; [done|]. apply Forall_singleton.
    destruct (visit_inv _ _ _ _ Hv)
      as (_ & _ & _ & _ & _ & _ & _ & _ & _ & _ & _ & Hd & _).
    rewrite Hd. destruct (start_times (self s) !! conn_id conn) eqn:E;
      [|done].
    apply Hst in E. by subst.
Qed.

Lemma round3_zero (q : Q) : (q == 0)%Q → (round3 q == 0)%Q.
Proof.
  intros Hq. unfold round3, round_half_even.
  assert (q * 1000 == 0)%Q as Hq' by (rewrite Hq; done).
  rewrite (Qfloor_comp _ _ Hq'). cbn [Qfloor Qnum Qden Z.div].
  assert (q * 1000 - inject_Z (0 `div` 1) == 0)%Q as Hr
    by (rewrite Hq'; done).
  by rewrite (Qcompare_comp _ _ Hr (1 # 2) (1 # 2) (Qeq_refl _)).
Qed.

(** X9.  A session starts from a tracker of its own: in the first message
    of every session all durations are 0, however long the connections
    have been there and whatever other sessions have been told. *)
Theorem session_starts_at_zero (p : pass) (rest : list pass) :
  pass_sent p = true →
  ∃ m, head (handler (p :: rest)) = Some m
       ∧ msg_connections m
         = (get_detailed_connections init (pass_clock p) (pass_sample p)).1
       ∧ Forall (λ r, (duration r == 0)%Q) (msg_connections m).
Proof.
  intros Hp. unfold handler. cbn [handler_loop]. rewrite Hp.
  eexists. split; [done|]. cbn [msg_connections]. split; [done|].
  pose proof (loop_fresh_durations (pass_clock p) (enter init)
                (pass_sample p)) as Hd.
  eapply Forall_impl; [apply Hd|].
  - intros k v Hk. cbn in Hk. by rewrite lookup_empty in Hk.
  - constructor.
  - intros r ->. apply round3_zero. ring.
Qed.

End Sessions.

Lemma session_starts_at_zero_witness :
  ∃ m, head (handler (L := ipv4)
               [{| pass_clock := 7; pass_sample := [public_https; lan_rdp];
                   pass_stamp := "2024-05-01T10:00:07";
                   pass_sent := true |}]) = Some m
       ∧ msg_total_connections m = 1%nat
       ∧ Forall (λ r, (duration r == 0)%Q) (msg_connections m).
Proof.
  destruct (session_starts_at_zero (L := ipv4)
              {| pass_clock := 7; pass_sample := [public_https; lan_rdp];
                 pass_stamp := "2024-05-01T10:00:07"; pass_sent := true |}
              []) as (m & Hm & Hc & Hd); [done|].
  exists m. split; [exact Hm|]. split; [|exact Hd].
  vm_compute in Hm. by injection Hm as <-.
Defined.

End NetworkWSFacts.

(* ===================================================================== *)
(** ** Properties of [NetworkAnalyzer] and [WebSocketServer] *)
(* ===================================================================== *)

Module ServiceFacts.
Import Service.

(** *** Facts about [Series.min()] and [Series.max()] *)

Section Series.

Local Open Scope Q_scope.

Lemma foldl_Qmin_le (a : Q) (l : list Q) :
  foldl Qmin a l <= a ∧ ∀ x, x ∈ l → foldl Qmin a l <= x.
Proof.
  revert a. induction l as [|y l IH]; intros a; cbn [foldl].
  - split; [apply Qle_refl|]. intros x Hx. by apply elem_of_nil in Hx.
  - destruct (IH (Qmin a y)) as [Ha Hl]. split.
    + eapply Qle_trans; [exact Ha|apply Q.le_min_l].
    + intros x Hx. apply elem_of_cons in Hx as [->|Hx]; [|by apply Hl].
      eapply Qle_trans; [exact Ha|apply Q.le_min_r].
Qed.

Lemma foldl_Qmax_ge (a : Q) (l : list Q) :
  a <= foldl Qmax a l ∧ ∀ x, x ∈ l → x <= foldl Qmax a l.
Proof.
  revert a. induction l as [|y l IH]; intros a; cbn [foldl].
  - split; [apply Qle_refl|]. intros x Hx. by apply elem_of_nil in Hx.
  - destruct (IH (Qmax a y)) as [Ha Hl]. split.
    + eapply Qle_trans; [apply Q.le_max_l|exact Ha].
    + intros x Hx. apply elem_of_cons in Hx as [->|Hx]; [|by apply Hl].
      eapply Qle_trans; [apply Q.le_max_r|exact Ha].
Qed.

Lemma series_min_le (l : list Q) (x : Q) : x ∈ l → series_min l <= x.
Proof.
  destruct l as [|a l]; intros Hx; [by apply elem_of_nil in Hx|].
  unfold series_min. destruct (foldl_Qmin_le a l) as [Ha Hl].
  apply elem_of_cons in Hx as [->|Hx]; [done|by apply Hl].
Qed.

Lemma series_max_ge (l : list Q) (x : Q) : x ∈ l → x <= series_max l.
Proof.
  destruct l as [|a l]; intros Hx; [by apply elem_of_nil in Hx|].
  unfold series_max. destruct (foldl_Qmax_ge a l) as [Ha Hl].
  apply elem_of_cons in Hx as [->|Hx]; [done|by apply Hl].
Qed.

(** The minimum and the maximum are elements of a non-empty series. *)
Lemma foldl_Qmin_elem (a : Q) (l : list Q) : foldl Qmin a l ∈ a :: l.
Proof.
  revert a. induction l as [|y l IH]; intros a; cbn [foldl]; [by left|].
  specialize (IH (Qmin a y)).
  apply elem_of_cons in IH as [->|IH]; [|by do 2 right].
  unfold Qmin, GenericMinMax.gmin. destruct (a ?= y); [left|left|right; left];
    done.
Qed.

Lemma foldl_Qmax_elem (a : Q) (l : list Q) : foldl Qmax a l ∈ a :: l.
Proof.
  revert a. induction l as [|y l IH]; intros a; cbn [foldl]; [by left|].
  specialize (IH (Qmax a y)).
  apply elem_of_cons in IH as [->|IH]; [|by do 2 right].
  unfold Qmax, GenericMinMax.gmax. destruct (a ?= y); [left|right; left|left];
    done.
Qed.

Lemma series_min_elem (x : Q) (l : list Q) : series_min (x :: l) ∈ x :: l.
Proof. apply foldl_Qmin_elem. Qed.

Lemma series_max_elem (x : Q) (l : list Q) : series_max (x :: l) ∈ x :: l.
Proof. apply foldl_Qmax_elem. Qed.

Lemma series_min_le_max (l : list Q) : series_min l <= series_max l.
Proof.
  destruct l as [|a l]; [apply Qle_refl|].
  eapply Qle_trans; [apply series_min_le|apply series_max_ge]; by left.
Qed.

(** The denominator of line 95 is positive: no division by zero. *)
Lemma denominator_positive (l : list Q) :
  0 < series_max l - series_min l + 1e-10.
Proof.
  pose proof (series_min_le_max l).
  assert (0 < 1e-10) by done. generalize dependent 1e-10. intros; lra.
Qed.

Lemma normalized_bounds (l : list Q) (x : Q) :
  x ∈ l →
  0 <= (x - series_min l) / (series_max l - series_min l + 1e-10) <= 1.
Proof.
  intros Hx. pose proof (series_min_le l x Hx) as Hlo.
  pose proof (series_max_ge l x Hx) as Hhi.
  pose proof (denominator_positive l) as Hd.
  assert (x - series_min l <= series_max l - series_min l + 1e-10) as Hle.
  { assert (0 < 1e-10) by done. generalize dependent 1e-10. intros; lra. }
  split.
  - apply Qle_shift_div_l; [done|]. lra.
  - apply Qle_shift_div_r; [done|]. lra.
Qed.

End Series.

(** *** The normalization under rounded arithmetic *)

Section Rounding.

Local Open Scope Q_scope.

(** A rounding: monotone, the identity on what it returns, exact at 0 and
    1, and not flushing 1e-10 to zero.  Rounding to the nearest float, and
    each directed rounding, is one as long as nothing overflows. *)
Variable rnd : Q → Q.
Hypothesis rnd_monotone : ∀ x y, x <= y → rnd x <= rnd y.
Hypothesis rnd_idempotent : ∀ x, rnd (rnd x) == rnd x.
Hypothesis rnd_0 : rnd 0 == 0.
Hypothesis rnd_1 : rnd 1 == 1.
Hypothesis rnd_epsilon : 0 < rnd 1e-10.

Lemma rnd_proper (x y : Q) : x == y → rnd x == rnd y.
Proof.
  intros E. apply Qle_antisym; apply rnd_monotone; rewrite E; apply Qle_refl.
Qed.

Lemma rnd_nonneg (x : Q) : 0 <= x → 0 <= rnd x.
Proof. intros Hx. pose proof (rnd_monotone 0 x Hx). lra. Qed.

Lemma rounded_parts (l : list Q) (x : Q) :
  x ∈ l →
  0 <= rnd (x - series_min l)
  ∧ rnd (x - series_min l)
    <= rnd (rnd (series_max l - series_min l) + rnd 1e-10)
  ∧ 0 < rnd (rnd (series_max l - series_min l) + rnd 1e-10).
Proof.
  intros Hx. pose proof (series_min_le l x Hx) as Hlo.
  pose proof (series_max_ge l x Hx) as Hhi.
  assert (0 <= rnd (series_max l - series_min l)) as Hspan
    by (apply rnd_nonneg; lra).
  split; [apply rnd_nonneg; lra|]. split.
  - eapply Qle_trans; [apply (rnd_monotone _ (series_max l - series_min l)); lra|].
    rewrite <- (rnd_idempotent (series_max l - series_min l)) at 1.
    apply rnd_monotone. lra.
  - eapply Qlt_le_trans; [exact rnd_epsilon|].
    rewrite <- (rnd_idempotent 1e-10) at 1. apply rnd_monotone. lra.
Qed.

(** With every operation rounded, the scores are still between 0 and 1 and
    the divisor is still positive. *)
Lemma normalize_rounded_bounds (l : list Q) (x : Q) :
  x ∈ normalize_rounded rnd l → 0 <= x <= 1.
Proof.
  unfold normalize_rounded. intros Hx.
  apply list_elem_of_fmap in Hx as (r & -> & Hr).
  destruct (rounded_parts l r Hr) as (Hn & Hnd & Hd).
  split.
  - apply rnd_nonneg. apply Qle_shift_div_l; [done|]. lra.
  - eapply Qle_trans; [apply (rnd_monotone _ 1)|by rewrite rnd_1].
    apply Qle_shift_div_r; [done|]. lra.
Qed.

Lemma normalize_rounded_all_equal (l : list Q) (x : Q) :
  (∀ r r', r ∈ l → r' ∈ l → r == r') →
  x ∈ normalize_rounded rnd l → x == 0.
Proof.
  unfold normalize_rounded. intros Heq Hx.
  apply list_elem_of_fmap in Hx as (r & -> & Hr).
  destruct l as [|a l]; [by apply elem_of_nil in Hr|].
  assert (r == series_min (a :: l)) as Hmin
    by (apply Heq; [done|apply series_min_elem]).
  assert (rnd (r - series_min (a :: l)) == 0) as Hnum.
  { transitivity (rnd 0); [apply rnd_proper; lra|exact rnd_0]. }
  transitivity (rnd 0); [|exact rnd_0].
  apply rnd_proper. unfold Qdiv. rewrite Hnum. ring.
Qed.

End Rounding.

(** The exact arithmetic of [normalize] is the rounding that changes
    nothing. *)
Lemma normalize_rounded_exact (l : list Q) :
  normalize_rounded (λ x, x) l = normalize l.
Proof. reflexivity. Qed.

(** Rounding down to a multiple of 2^-60 is a rounding in the above sense,
    so the bounds hold for it. *)
Lemma round_down_bounds (l : list Q) (x : Q) :
  x ∈ normalize_rounded round_down l → (0 <= x <= 1)%Q.
Proof.
  apply normalize_rounded_bounds.
  - intros a b Hab. unfold round_down.
    apply Qmult_le_compat_r; [|done]. rewrite <- Zle_Qle.
    apply Qfloor_resp_le. by apply Qmult_le_compat_r.
  - intros a. unfold round_down at 1.
    assert (round_down a * inject_Z (2 ^ 60) ==
            inject_Z (Qfloor (a * inject_Z (2 ^ 60))))%Q as ->
      by (unfold round_down; field; done).
    by rewrite Qfloor_Z.
  - done.
  - done.
  - done.
Qed.

(** *** Facts about the scores *)

Lemma normalize_length (score : list Q) :
  length (normalize score) = length score.
Proof. unfold normalize. apply length_fmap. Qed.

Lemma normalize_lookup (score : list Q) (i : nat) (x : Q) :
  normalize score !! i = Some x →
  ∃ r, score !! i = Some r
       ∧ x = ((r - series_min score)
              / (series_max score - series_min score + 1e-10))%Q.
Proof.
  unfold normalize. rewrite list_lookup_fmap.
  destruct (score !! i) as [r|]; [|done]. intros [= <-]. by exists r.
Qed.

Lemma normalize_all_equal (score : list Q) (x : Q) :
  (∀ r r', r ∈ score → r' ∈ score → (r == r')%Q) →
  x ∈ normalize score → (x == 0)%Q.
Proof.
  intros Heq Hx. unfold normalize in Hx.
  apply list_elem_of_fmap in Hx as (r & -> & Hr).
  destruct score as [|a l]; [by apply elem_of_nil in Hr|].
  assert (r == series_min (a :: l))%Q as Hmin
    by (apply Heq; [done|apply series_min_elem]).
  unfold Qdiv. rewrite Hmin. ring.
Qed.

(** *** Facts about the labels *)

Lemma label_of_malicious (x : Q) :
  label_of x = "Malicious" ↔ (0.8 <= x)%Q.
Proof.
  unfold label_of. rewrite <- Qle_bool_iff.
  by destruct (Qle_bool 0.8 x).
Qed.

Lemma label_of_benign (x : Q) :
  label_of x = "Benign" ↔ ¬ (0.8 <= x)%Q.
Proof.
  unfold label_of. rewrite <- Qle_bool_iff.
  by destruct (Qle_bool 0.8 x).
Qed.

Lemma results_lookup connections scores rows (i : nat) (r : result_row) :
  results connections scores = Some rows → rows !! i = Some r →
  ∃ conn score, connections !! i = Some conn ∧ scores !! i = Some score
                ∧ r = result_of conn score.
Proof.
  unfold results. case_match; [|done]. intros [= <-] Hr.
  apply lookup_zip_with_Some in Hr as (conn & score & -> & ? & ?).
  by exists conn, score.
Qed.

Lemma results_length connections scores rows :
  results connections scores = Some rows →
  length rows = length scores ∧ length connections = length scores.
Proof.
  unfold results. case_match eqn:E; [|done]. intros [= <-].
  apply Nat.eqb_eq in E. rewrite length_zip_with. lia.
Qed.

Lemma results_scores connections scores rows :
  results connections scores = Some rows → anomaly_score <$> rows = scores.
Proof.
  unfold results. case_match eqn:E; [|done]. intros [= <-].
  apply Nat.eqb_eq in E. revert scores E.
  induction connections as [|c cs IH]; intros [|x xs] E; try done.
  simpl in E. cbn. f_equal. apply IH. lia.
Qed.

Lemma count_label_partition (rows : list result_row) :
  Forall (λ r, label r = label_of (anomaly_score r)) rows →
  (count_label "Malicious" rows + count_label "Benign" rows)%nat
  = length rows.
Proof.
  unfold count_label. induction 1 as [|r rows Hr _ IH]; [done|].
  cbn [List.filter]. rewrite Hr. unfold label_of.
  destruct (Qle_bool 0.8 (anomaly_score r)); cbn; lia.
Qed.

Lemma results_labels connections scores rows :
  results connections scores = Some rows →
  Forall (λ r, label r = label_of (anomaly_score r)) rows.
Proof.
  intros Hres. apply Forall_lookup. intros i r Hr.
  destruct (results_lookup _ _ _ i r Hres Hr) as (conn & score & _ & _ & ->).
  done.
Qed.

(** *** Facts about the ranking *)

Lemma insert_desc_perm (r : result_row) (l : list result_row) :
  insert_desc r l ≡ₚ r :: l.
Proof.
  induction l as [|y l IH]; cbn; [done|]. case_match; [done|].
  rewrite IH. apply Permutation_swap.
Qed.

Lemma sort_desc_perm (l : list result_row) : sort_desc l ≡ₚ l.
Proof.
  induction l as [|r l IH]; [done|].
  cbn [sort_desc foldr]. rewrite insert_desc_perm. by f_equiv.
Qed.

Lemma insert_desc_sorted (r : result_row) (l : list result_row) :
  StronglySorted ranks_before l → StronglySorted ranks_before (insert_desc r l).
Proof.
  induction l as [|y l IH]; intros Hs; cbn.
  - by repeat constructor.
  - apply StronglySorted_cons in Hs as [Hy Hl].
    destruct (Qle_bool (anomaly_score y) (anomaly_score r)) eqn:E.
    + apply Qle_bool_iff in E. constructor; [by constructor|].
      constructor; [done|].
      eapply Forall_impl; [exact Hy|]. intros z Hz. unfold ranks_before in *.
      by eapply Qle_trans.
    + constructor; [by apply IH|].
      rewrite insert_desc_perm. constructor; [|done].
      unfold ranks_before. apply Qlt_le_weak, Qnot_le_lt.
      intros Hle. apply Qle_bool_iff in Hle. congruence.
Qed.

Lemma sort_desc_sorted (l : list result_row) :
  StronglySorted ranks_before (sort_desc l).
Proof.
  induction l as [|r l IH]; [constructor|].
  cbn [sort_desc foldr]. by apply insert_desc_sorted.
Qed.

(** Insertion never moves a row past a row of the same score. *)
Lemma scoring_insert_desc (v : Q) (r : result_row) (l : list result_row) :
  scoring v (insert_desc r l) = scoring v (r :: l).
Proof.
  unfold scoring. induction l as [|y l IH]; [done|]. cbn [insert_desc].
  destruct (Qle_bool (anomaly_score y) (anomaly_score r)) eqn:E; [done|].
  cbn [List.filter] in *. rewrite IH.
  destruct (Qeq_bool (anomaly_score r) v) eqn:Er; [|done].
  destruct (Qeq_bool (anomaly_score y) v) eqn:Ey; [|done].
  apply Qeq_bool_iff in Er, Ey.
  assert (Qle_bool (anomaly_score y) (anomaly_score r) = true); [|congruence].
  apply Qle_bool_iff. rewrite Er, Ey. apply Qle_refl.
Qed.

Lemma sort_desc_stable (v : Q) (l : list result_row) :
  scoring v (sort_desc l) = scoring v l.
Proof.
  induction l as [|r l IH]; [done|].
  cbn [sort_desc foldr]. rewrite scoring_insert_desc.
  unfold scoring in *. cbn [List.filter]. fold (sort_desc l). by rewrite IH.
Qed.

Lemma scoring_take_prefix (v : Q) (n : nat) (l : list result_row) :
  scoring v (take n l) `prefix_of` scoring v l.
Proof.
  exists (scoring v (drop n l)). unfold scoring.
  by rewrite <- List.filter_app, take_drop.
Qed.

(** What [nlargest] returns. *)
Lemma nlargest_spec (n : nat) (rows : list result_row) :
  length (nlargest n rows) = min n (length rows)
  ∧ StronglySorted ranks_before (nlargest n rows)
  ∧ (∀ v, scoring v (nlargest n rows) `prefix_of` scoring v rows)
  ∧ ∃ rest, nlargest n rows ++ rest ≡ₚ rows
            ∧ ∀ a b, a ∈ nlargest n rows → b ∈ rest → ranks_before a b.
Proof.
  unfold nlargest.
  pose proof (sort_desc_sorted rows) as Hs.
  rewrite <- (take_drop n (sort_desc rows)) in Hs.
  split; [|split; [|split]].
  - by rewrite length_take, sort_desc_perm.
  - by apply StronglySorted_app_1_l in Hs.
  - intros v. rewrite <- (sort_desc_stable v rows).
    apply scoring_take_prefix.
  - exists (drop n (sort_desc rows)). split.
    + by rewrite take_drop, sort_desc_perm.
    + intros a b. by apply StronglySorted_app_1_elem_of.
Qed.

(** *** A batch goes through *)

(** A non-empty batch whose feature frame has one row per connection is
    scored and yields a payload. *)
Lemma process_batch_returns preprocess_data now_iso connections features :
  connections ≠ [] →
  preprocess_data connections = Some features →
  length features = length connections →
  ∃ rows,
    results connections (normalize (raw_score <$> features)) = Some rows
    ∧ process_batch preprocess_data now_iso connections
      = Some {| vis_timestamp := now_iso;
                vis_summary :=
                  {| avg_score := mean (normalize (raw_score <$> features));
                     max_score :=
                       series_max (normalize (raw_score <$> features));
                     malicious_count := count_label "Malicious" rows;
                     benign_count := count_label "Benign" rows;
                     total_connections :=
                       length (normalize (raw_score <$> features)) |};
                top_anomalies := nlargest 10 rows |}.
Proof.
  intros Hne Hpre Hlen.
  destruct connections as [|conn connections]; [done|].
  unfold process_batch. rewrite Hpre. cbn [mbind option_bind].
  unfold calculate_anomaly_score. cbn [mbind option_bind].
  unfold results at 2.
  rewrite normalize_length, length_fmap, Hlen, Nat.eqb_refl.
  eexists. split; [|done].
  unfold results.
  by rewrite normalize_length, length_fmap, Hlen, Nat.eqb_refl.
Qed.

(** C4.  For a non-empty feature frame the scorer returns one score per
    row; the divisor of the normalization is positive; each score is the
    row's raw score minus the batch minimum, over the batch maximum minus the
    batch minimum plus 1e-10, and lies between 0 and 1; and when all raw
    scores of the batch are equal every score is 0. *)
Theorem normalized_scores_in_unit_interval (features : list feature_row) :
  features ≠ [] →
  let raw := raw_score <$> features in
  ∃ scores,
    calculate_anomaly_score features = Some scores
    ∧ length scores = length features
    ∧ (0 < series_max raw - series_min raw + 1e-10)%Q
    ∧ (∀ i x, scores !! i = Some x →
         ∃ r, raw !! i = Some r
              ∧ x = ((r - series_min raw)
                     / (series_max raw - series_min raw + 1e-10))%Q
              ∧ (0 <= x <= 1)%Q)
    ∧ ((∀ r r', r ∈ raw → r' ∈ raw → (r == r')%Q) →
       ∀ x, x ∈ scores → (x == 0)%Q).
Proof.
  intros _ raw. exists (normalize raw). split; [done|].
  split; [unfold raw; by rewrite normalize_length, length_fmap|].
  split; [apply denominator_positive|]. split.
  - intros i x Hx. destruct (normalize_lookup raw i x Hx) as (r & Hr & ->).
    exists r. split; [done|]. split; [done|].
    apply normalized_bounds. by eapply list_elem_of_lookup_2.
  - intros Heq x Hx. by apply (normalize_all_equal raw).
Qed.

Lemma normalized_scores_in_unit_interval_witness :
  sample_features ≠ []
  ∧ ∃ scores,
      calculate_anomaly_score sample_features = Some scores
      ∧ length scores = 3%nat
      ∧ ∀ i x, scores !! i = Some x → (0 <= x <= 1)%Q.
Proof.
  split; [done|].
  destruct (normalized_scores_in_unit_interval sample_features)
    as (scores & Hcalc & Hlen & _ & Hbounds & _); [done|].
  exists scores. split; [exact Hcalc|]. split; [exact Hlen|].
  intros i x Hx. destruct (Hbounds i x Hx) as (r & _ & _ & Hb). exact Hb.
Defined.

(** A batch whose raw scores are all equal: every score is 0. *)
Example equal_scores_normalize_to_zero :
  fmap (M := list) (Qeq_bool 0)
    <$> calculate_anomaly_score [sample_row 0 0 [1]; sample_row 0 0 [1]]%Q
  = Some [true; true].
Proof. by vm_compute. Qed.

(** C7.  Every row of the scored frame is labelled "Malicious" exactly when
    its score is at least 0.8 and "Benign" exactly when it is not; 0.8
    itself is "Malicious" and 0.79999 is "Benign". *)
Theorem label_threshold (connections : list NetworkWS.connection_data)
    (scores : list Q) (rows : list result_row) :
  results connections scores = Some rows →
  (∀ r, r ∈ rows →
        (label r = "Malicious" ↔ (0.8 <= anomaly_score r)%Q)
        ∧ (label r = "Benign" ↔ ¬ (0.8 <= anomaly_score r)%Q))
  ∧ label_of 0.8 = "Malicious"
  ∧ label_of 0.79999 = "Benign".
Proof.
  intros Hres. split; [|by vm_compute].
  intros r Hr. pose proof (results_labels _ _ _ Hres) as Hl.
  rewrite Forall_forall in Hl. rewrite (Hl r Hr).
  split; [apply label_of_malicious|apply label_of_benign].
Qed.

Lemma label_threshold_witness :
  results sample_connections [0.8; 0.79999; 1]%Q
  = Some (zip_with result_of sample_connections [0.8; 0.79999; 1]%Q)
  ∧ label <$> zip_with result_of sample_connections [0.8; 0.79999; 1]%Q
    = ["Malicious"; "Benign"; "Malicious"]
  ∧ ∀ r, r ∈ zip_with result_of sample_connections [0.8; 0.79999; 1]%Q →
         label r = "Malicious" ↔ (0.8 <= anomaly_score r)%Q.
Proof.
  split; [reflexivity|]. split; [reflexivity|].
  intros r Hr.
  destruct (label_threshold sample_connections [0.8; 0.79999; 1]%Q
              (zip_with result_of sample_connections [0.8; 0.79999; 1]%Q))
    as [Hall _]; [reflexivity|].
  exact (proj1 (Hall r Hr)).
Defined.

(** C8.  For a non-empty batch that is scored, the payload's
    [top_anomalies] has at most 10 rows, in descending order of score; the
    rows of any one score are the first rows of that score in the batch, in
    batch order; and every row left out scores no more than every row
    kept. *)
Theorem top_anomalies_ranked
    (preprocess_data : list NetworkWS.connection_data → option (list feature_row))
    (now_iso : string) (connections : list NetworkWS.connection_data)
    (features : list feature_row) :
  connections ≠ [] →
  preprocess_data connections = Some features →
  length features = length connections →
  ∃ v rows,
    process_batch preprocess_data now_iso connections = Some v
    ∧ results connections (normalize (raw_score <$> features)) = Some rows
    ∧ (length (top_anomalies v) ≤ 10)%nat
    ∧ StronglySorted ranks_before (top_anomalies v)
    ∧ (∀ value,
         scoring value (top_anomalies v) `prefix_of` scoring value rows)
    ∧ ∃ rest, top_anomalies v ++ rest ≡ₚ rows
              ∧ ∀ a b, a ∈ top_anomalies v → b ∈ rest → ranks_before a b.
Proof.
  intros Hne Hpre Hlen.
  destruct (process_batch_returns preprocess_data now_iso connections
              features Hne Hpre Hlen) as (rows & Hres & Hv).
  eexists _, rows. split; [exact Hv|]. split; [exact Hres|].
  cbn [top_anomalies].
  destruct (nlargest_spec 10 rows) as (Hl & Hs & Ht & Hr).
  split; [rewrite Hl; lia|]. by split; [|split].
Qed.

Lemma top_anomalies_ranked_witness :
  sample_connections ≠ []
  ∧ sample_preprocess sample_connections = Some sample_features
  ∧ length sample_features = length sample_connections
  ∧ ∃ v, process_batch sample_preprocess "2024-05-01T10:00:05"
           sample_connections = Some v
         ∧ source <$> top_anomalies v
           = ["93.184.216.35:51000"; "93.184.216.34:51000";
              "93.184.216.36:51000"]
         ∧ (length (top_anomalies v) ≤ 10)%nat
         ∧ StronglySorted ranks_before (top_anomalies v).
Proof.
  split; [done|]. split; [done|]. split; [done|].
  destruct (top_anomalies_ranked sample_preprocess "2024-05-01T10:00:05"
              sample_connections sample_features)
    as (v & rows & Hv & _ & Hlen & Hsorted & _); [done|done|done|].
  exists v. split; [exact Hv|]. split; [|by split].
  vm_compute in Hv. injection Hv as <-. by vm_compute.
Defined.

(** C10.  For a non-empty batch that is scored, the summary's
    [malicious_count] and [benign_count] add up to its
    [total_connections], which is the number of connections of the batch. *)
Theorem summary_counts_add_up
    (preprocess_data : list NetworkWS.connection_data → option (list feature_row))
    (now_iso : string) (connections : list NetworkWS.connection_data)
    (features : list feature_row) :
  connections ≠ [] →
  preprocess_data connections = Some features →
  length features = length connections →
  ∃ v,
    process_batch preprocess_data now_iso connections = Some v
    ∧ (malicious_count (vis_summary v) + benign_count (vis_summary v))%nat
      = total_connections (vis_summary v)
    ∧ total_connections (vis_summary v) = length connections.
Proof.
  intros Hne Hpre Hlen.
  destruct (process_batch_returns preprocess_data now_iso connections
              features Hne Hpre Hlen) as (rows & Hres & Hv).
  eexists. split; [exact Hv|].
  cbn [vis_summary malicious_count benign_count total_connections].
  destruct (results_length _ _ _ Hres) as [Hrows Hconns].
  rewrite count_label_partition by by eapply results_labels.
  by rewrite Hrows, Hconns.
Qed.

Lemma summary_counts_add_up_witness :
  sample_connections ≠ []
  ∧ sample_preprocess sample_connections = Some sample_features
  ∧ length sample_features = length sample_connections
  ∧ ∃ v, process_batch sample_preprocess "2024-05-01T10:00:05"
           sample_connections = Some v
         ∧ (malicious_count (vis_summary v), benign_count (vis_summary v),
            total_connections (vis_summary v)) = (1, 2, 3)%nat
         ∧ (malicious_count (vis_summary v) + benign_count (vis_summary v))%nat
           = total_connections (vis_summary v).
Proof.
  split; [done|]. split; [done|]. split; [done|].
  destruct (summary_counts_add_up sample_preprocess "2024-05-01T10:00:05"
              sample_connections sample_features)
    as (v & Hv & Hsum & _); [done|done|done|].
  exists v. split; [exact Hv|]. split; [|exact Hsum].
  vm_compute in Hv. injection Hv as <-. by vm_compute.
Defined.

(** *** Facts about the subscriber set *)

Lemma send_spec (websocket : client) (message : string) (σ : state) :
  (send websocket message σ).1 = send_outcome σ websocket
  ∧ connected_clients (send websocket message σ).2 = connected_clients σ
  ∧ closed (send websocket message σ).2 = closed σ
  ∧ ∀ c, inbox (send websocket message σ).2 c =
           if decide (c = websocket ∧ c ∉ closed σ)
           then (inbox σ c ++ [message])%list
           else inbox σ c.
Proof.
  unfold send, send_outcome.
  destruct (decide (websocket ∈ closed σ)) as [Hc|Hc]; cbn.
  - repeat split. intros c. rewrite decide_False; [done|]. by intros [-> ?].
  - repeat split. intros c. unfold inbox at 1; cbn.
    destruct (decide (c = websocket)) as [->|Hne].
    + rewrite lookup_insert_eq, decide_True; done.
    + rewrite lookup_insert_ne by congruence.
      by rewrite decide_False by tauto.
Qed.

Lemma gather_sends (message : string) (l : list client) (σ : state) :
  NoDup l →
  let r :=
    gather_return_exceptions ((λ client, send client message) <$> l) σ in
  r.1 = send_outcome σ <$> l
  ∧ connected_clients r.2 = connected_clients σ
  ∧ closed r.2 = closed σ
  ∧ ∀ c, inbox r.2 c =
           if decide (c ∈ l ∧ c ∉ closed σ)
           then (inbox σ c ++ [message])%list
           else inbox σ c.
Proof.
  intros Hnd. revert σ. induction Hnd as [|a l Ha Hnd IH]; intros σ;
    cbv zeta.
  - cbn. by repeat split.
  - rewrite fmap_cons. cbn [gather_return_exceptions fst snd].
    destruct (send_spec a message σ) as (Hr & Hcon & Hcl & Hin).
    pose proof (IH (send a message σ).2) as IH'. cbv zeta in IH'.
    destruct IH' as (IHr & IHcon & IHcl & IHin).
    split; [|split; [|split]].
    + rewrite fmap_cons, Hr, IHr. f_equal.
      apply list_fmap_ext. intros _ c _. unfold send_outcome. by rewrite Hcl.
    + by rewrite IHcon.
    + by rewrite IHcl.
    + intros c. rewrite IHin, Hin, Hcl.
      rewrite (decide_ext (c ∈ a :: l ∧ c ∉ closed σ)
                 ((c = a ∧ c ∉ closed σ) ∨ (c ∈ l ∧ c ∉ closed σ)))
        by (rewrite elem_of_cons; tauto).
      destruct (decide (c ∈ l ∧ c ∉ closed σ)) as [[Hc ?]|?],
        (decide (c = a ∧ c ∉ closed σ)) as [[-> ?]|?]; try done.
      * by rewrite decide_True by tauto.
      * by rewrite decide_True by tauto.
      * by rewrite decide_False by tauto.
Qed.

(** What [broadcast] does, in one statement. *)
Lemma broadcast_spec (message : string) (σ : state) :
  (broadcast message σ).1 = Returned ()
  ∧ connected_clients (broadcast message σ).2 = connected_clients σ
  ∧ closed (broadcast message σ).2 = closed σ
  ∧ ∀ c, inbox (broadcast message σ).2 c =
           if decide (c ∈ connected_clients σ ∧ c ∉ closed σ)
           then (inbox σ c ++ [message])%list
           else inbox σ c.
Proof.
  unfold broadcast.
  destruct (decide (connected_clients σ = ∅)) as [He|Hne]; cbn [fst snd].
  - repeat split. intros c. rewrite decide_False; [done|].
    rewrite He. intros [Hc _]. by apply not_elem_of_empty in Hc.
  - destruct (gather_sends message (elements (connected_clients σ)) σ)
      as (_ & Hcon & Hcl & Hin); [apply NoDup_elements|].
    split; [done|]. split; [done|]. split; [done|].
    intros c. rewrite Hin. apply decide_ext. by rewrite elem_of_elements.
Qed.

(** Scoring a batch and broadcasting its payload raises nothing. *)
Lemma relay_returns preprocess_data dumps now_iso connections (σ : state) :
  (relay preprocess_data dumps now_iso connections σ).1 = Returned ().
Proof.
  unfold relay. destruct (process_batch _ _ _); [|done].
  apply broadcast_spec.
Qed.

Lemma unregister_present (websocket : client) (σ : state) :
  websocket ∈ connected_clients σ →
  (unregister websocket σ).1 = Returned ()
  ∧ connected_clients (unregister websocket σ).2
    = connected_clients σ ∖ {[websocket]}.
Proof. intros Hin. unfold unregister. by rewrite decide_True by done. Qed.

Lemma unregister_after_register (websocket : client) (σ : state) :
  (unregister websocket (register websocket σ).2).1 = Returned ().
Proof.
  apply unregister_present. cbn. apply elem_of_union_l.
  by apply elem_of_singleton.
Qed.




(** C2, as the specification has it, fails: with no subscriber connected,
    [unregister] of websocket 1 does not return; it raises [KeyError]. *)
Lemma unregister_absent_is_not_silent :
  ¬ (1%positive ∉ connected_clients idle →
     unregister 1%positive idle = (Returned (), idle)).
Proof.
  intros Hclaim. assert (1%positive ∉ connected_clients idle) as Hno.
  { cbn. apply not_elem_of_empty. }
  specialize (Hclaim Hno). unfold unregister in Hclaim.
  rewrite decide_False in Hclaim by done. discriminate Hclaim.
Qed.

(** C2 (amended).  [unregister] of a subscriber that is not in the
    connected-subscriber set raises [KeyError] and leaves the set, and the
    rest of the state, unchanged. *)
Theorem unregister_absent_raises_key_error (websocket : client) (σ : state) :
  websocket ∉ connected_clients σ →
  unregister websocket σ = (Raised KeyError, σ).
Proof. intros Hno. unfold unregister. by rewrite decide_False by done. Qed.

Lemma unregister_absent_raises_key_error_witness :
  (1%positive ∉ connected_clients idle)
  ∧ unregister 1%positive idle = (Raised KeyError, idle).
Proof.
  assert (1%positive ∉ connected_clients idle) as Hno.
  { cbn. apply not_elem_of_empty. }
  split; [exact Hno|].
  exact (unregister_absent_raises_key_error 1%positive idle Hno).
Defined.

(** C9.  [broadcast] returns without raising, whatever the sends do, and so
    does the scoring and broadcasting of a batch.  Every subscriber whose
    own send works has the message delivered, whether or not the sends to
    other subscribers fail; a subscriber whose send fails gets nothing; the
    subscriber set is as before; and [gather] collects one outcome per
    subscriber, a failure being the exception as a value. *)
Theorem broadcast_isolates_send_failures (message : string) (σ : state) :
  (broadcast message σ).1 = Returned ()
  ∧ connected_clients (broadcast message σ).2 = connected_clients σ
  ∧ (∀ c, c ∈ connected_clients σ → c ∉ closed σ →
          inbox (broadcast message σ).2 c = (inbox σ c ++ [message])%list)
  ∧ (∀ c, c ∈ closed σ → inbox (broadcast message σ).2 c = inbox σ c)
  ∧ broadcast_results message σ
    = send_outcome σ <$> elements (connected_clients σ)
  ∧ length (broadcast_results message σ) = size (connected_clients σ)
  ∧ ∀ preprocess_data dumps now_iso connections,
      (relay preprocess_data dumps now_iso connections σ).1 = Returned ().
Proof.
  destruct (broadcast_spec message σ) as (Hr & Hcon & _ & Hin).
  destruct (gather_sends message (elements (connected_clients σ)) σ)
    as (Hres & _); [apply NoDup_elements|].
  split; [done|]. split; [done|]. split; [|split; [|split; [|split]]].
  - intros c Hc Hok. by rewrite Hin, decide_True by done.
  - intros c Hc. rewrite Hin, decide_False; [done|]. by intros [_ ?].
  - exact Hres.
  - unfold broadcast_results. rewrite Hres. by rewrite length_fmap.
  - intros. apply relay_returns.
Qed.

Lemma broadcast_isolates_send_failures_witness :
  (broadcast "ranked" three_subscribers).1 = Returned ()
  ∧ inbox (broadcast "ranked" three_subscribers).2 1%positive = ["ranked"]
  ∧ inbox (broadcast "ranked" three_subscribers).2 2%positive = []
  ∧ inbox (broadcast "ranked" three_subscribers).2 3%positive = ["ranked"]
  ∧ broadcast_results "ranked" three_subscribers
    = [Returned (); Raised ConnectionClosed; Returned ()].
Proof.
  destruct (broadcast_isolates_send_failures "ranked" three_subscribers)
    as (Hr & _ & Hok & Hfail & Hres & _).
  split; [exact Hr|]. split; [|split; [|split]].
  - rewrite Hok; try done; by vm_compute.
  - rewrite Hfail; try done; by vm_compute.
  - rewrite Hok; try done; by vm_compute.
  - rewrite Hres. by vm_compute.
Defined.

(** *** More about the normalization *)

Section Normalization.

Local Open Scope Q_scope.

Lemma normalize_lookup_iff (score : list Q) (i : nat) (r : Q) :
  score !! i = Some r →
  normalize score !! i
  = Some ((r - series_min score)
          / (series_max score - series_min score + 1e-10)).
Proof. intros Hr. unfold normalize. by rewrite list_lookup_fmap, Hr. Qed.


Lemma normalized_below_one (l : list Q) (x : Q) :
  x ∈ l → (x - series_min l) / (series_max l - series_min l + 1e-10) < 1.
Proof.
  intros Hx. pose proof (series_max_ge l x Hx) as Hhi.
  pose proof (denominator_positive l) as Hd.
  apply Qlt_shift_div_r; [done|].
  assert (0 < 1e-10) by done. generalize dependent 1e-10. intros; lra.
Qed.

Lemma normalized_min_zero (l : list Q) (r : Q) :
  r == series_min l →
  (r - series_min l) / (series_max l - series_min l + 1e-10) == 0.
Proof. intros Hr. unfold Qdiv. rewrite Hr. ring. Qed.

End Normalization.

Lemma normalize_has_zero (l : list Q) :
  l ≠ [] → ∃ i x, normalize l !! i = Some x ∧ (x == 0)%Q.
Proof.
  intros Hne. destruct l as [|r l]; [done|].
  pose proof (series_min_elem r l) as Hmin.
  apply list_elem_of_lookup in Hmin as [i Hi].
  exists i. eexists. split; [by apply normalize_lookup_iff|].
  by apply normalized_min_zero.
Qed.


(** *** [preprocess_data] *)

Lemma index_of_is_Some (x : string) (l : list string) :
  x ∈ l → is_Some (index_of x l).
Proof.
  induction l as [|y l IH]; intros Hx; [by apply elem_of_nil in Hx|].
  cbn [index_of]. destruct (String.eqb x y) eqn:E; [done|].
  apply elem_of_cons in Hx as [->|Hx].
  - by rewrite String.eqb_refl in E.
  - destruct (IH Hx) as [k ->]. done.
Qed.

Lemma index_of_lookup (x : string) (l : list string) (k : nat) :
  index_of x l = Some k → l !! k = Some x.
Proof.
  revert k. induction l as [|y l IH]; intros k; [done|].
  cbn [index_of]. destruct (String.eqb x y) eqn:E.
  - intros [= <-]. apply String.eqb_eq in E. by subst.
  - destruct (index_of x l) as [k'|]; [|done].
    intros [= <-]. by apply IH.
Qed.

Lemma elem_of_classes (x : string) (column : list string) :
  x ∈ classes column ↔ x ∈ column.
Proof.
  unfold classes. rewrite merge_sort_Permutation.
  apply elem_of_remove_dups.
Qed.


Lemma foldl_Qplus (a : Q) (l : list Q) :
  (foldl Qplus a l == a + row_sum l)%Q.
Proof.
  unfold row_sum. revert a. induction l as [|x l IH]; intros a; cbn [foldl].
  - ring.
  - rewrite (IH (a + x)%Q), (IH (0 + x)%Q). ring.
Qed.

Lemma row_sum_cons (x : Q) (l : list Q) :
  (row_sum (x :: l) == x + row_sum l)%Q.
Proof.
  unfold row_sum at 1. cbn [foldl]. rewrite foldl_Qplus. ring.
Qed.



Section Frame.

Variable sqrt : Q → Q.
Variable is_constant : Q → Q → nat → bool.

Lemma features_of_is_Some (data : list NetworkWS.connection_data)
    (conn : NetworkWS.connection_data) :
  conn ∈ data → is_Some (features_of sqrt is_constant data conn).
Proof.
  intros Hc. unfold features_of.
  destruct (index_of_is_Some (NetworkWS.service conn)
              (classes (NetworkWS.service <$> data))) as [k ->].
  { apply elem_of_classes, list_elem_of_fmap. by exists conn. }
  destruct (index_of_is_Some (NetworkWS.conn_state conn)
              (classes (NetworkWS.conn_state <$> data))) as [k' ->].
  { apply elem_of_classes, list_elem_of_fmap. by exists conn. }
  done.
Qed.

Lemma preprocess_data_is_Some (data : list NetworkWS.connection_data) :
  data ≠ [] → is_Some (preprocess_data sqrt is_constant data).
Proof.
  intros Hne. unfold preprocess_data. destruct data as [|c data']; [done|].
  apply mapM_is_Some_2, Forall_forall. intros x Hx.
  by apply features_of_is_Some.
Qed.

Lemma preprocess_data_length (data : list NetworkWS.connection_data)
    (features : list feature_row) :
  preprocess_data sqrt is_constant data = Some features →
  length features = length data.
Proof.
  unfold preprocess_data. destruct data as [|c data']; [done|].
  intros H. symmetry. by apply length_mapM in H.
Qed.

Lemma preprocess_data_lookup (data : list NetworkWS.connection_data)
    (features : list feature_row) (i : nat) (c : NetworkWS.connection_data)
    (f : feature_row) :
  preprocess_data sqrt is_constant data = Some features →
  data !! i = Some c → features !! i = Some f →
  features_of sqrt is_constant data c = Some f.
Proof.
  unfold preprocess_data. destruct data as [|c0 data']; [done|].
  intros H Hc Hf. apply mapM_Some_1 in H.
  by apply (Forall2_lookup_lr _ _ _ _ _ _ H Hc Hf).
Qed.

Lemma preprocess_data_elem (data : list NetworkWS.connection_data)
    (features : list feature_row) (f : feature_row) :
  preprocess_data sqrt is_constant data = Some features → f ∈ features →
  ∃ c, c ∈ data ∧ features_of sqrt is_constant data c = Some f.
Proof.
  intros H Hf. apply list_elem_of_lookup in Hf as [i Hi].
  destruct (lookup_lt_is_Some_2 data i) as [c Hc].
  { rewrite <- (preprocess_data_length _ _ H). by eapply lookup_lt_Some. }
  exists c. split; [by eapply list_elem_of_lookup_2|].
  by eapply preprocess_data_lookup.
Qed.

Lemma features_of_inv (data : list NetworkWS.connection_data)
    (c : NetworkWS.connection_data) (f : feature_row) :
  features_of sqrt is_constant data c = Some f →
  ∃ k k',
    index_of (NetworkWS.service c) (classes (NetworkWS.service <$> data))
    = Some k
    ∧ index_of (NetworkWS.conn_state c)
        (classes (NetworkWS.conn_state <$> data)) = Some k'
    ∧ EventType f = event_type_map (classify (NetworkWS.conn_state c))
    ∧ category f = inject_Z (Z.of_nat k)
    ∧ subcategory f = inject_Z (Z.of_nat k')
    ∧ duration f
      = standardize sqrt is_constant (NetworkWS.duration <$> data)
          (NetworkWS.duration c)
    ∧ orig_pkts f
      = standardize sqrt is_constant
          ((λ c, inject_Z (NetworkWS.orig_pkts c)) <$> data)
          (inject_Z (NetworkWS.orig_pkts c))
    ∧ orig_bytes f
      = standardize sqrt is_constant
          ((λ c, inject_Z (NetworkWS.orig_bytes c)) <$> data)
          (inject_Z (NetworkWS.orig_bytes c))
    ∧ service_cols f
      = one_hot (classes (NetworkWS.service <$> data)) (NetworkWS.service c).
Proof.
  unfold features_of.
  destruct (index_of (NetworkWS.service c) _) as [k|]; [|done].
  destruct (index_of (NetworkWS.conn_state c) _) as [k'|]; [|done].
  intros [= <-]. exists k, k'. by repeat split.
Qed.

End Frame.

(** X11.  Preprocessing fails on the empty batch and on no other: a
    non-empty batch of collector records gives a feature frame with one row
    per record, and one indicator column per distinct service. *)
Theorem preprocess_data_returns (sqrt : Q → Q)
    (is_constant : Q → Q → nat → bool)
    (data : list NetworkWS.connection_data) :
  preprocess_data sqrt is_constant [] = None
  ∧ (data ≠ [] →
     ∃ features,
       preprocess_data sqrt is_constant data = Some features
       ∧ length features = length data
       ∧ ∀ f, f ∈ features →
           length (service_cols f)
           = length (remove_dups (NetworkWS.service <$> data))).
Proof.
  split; [done|]. intros Hne.
  destruct (preprocess_data_is_Some sqrt is_constant data Hne)
    as [features H].
  exists features. split; [done|].
  split; [by eapply preprocess_data_length|].
  intros f Hf.
  destruct (preprocess_data_elem _ _ _ _ _ H Hf) as (c & _ & Hc).
  apply features_of_inv in Hc as (k & k' & _ & _ & _ & _ & _ & _ & _ & _ & ->).
  unfold one_hot, classes.
  by rewrite length_fmap, merge_sort_Permutation.
Qed.

(** X12.  The label codes of a batch tell the values apart: two records
    get the same [category] exactly when they have the same service, and
    the same [subcategory] exactly when they have the same state; each code
    is the position of the value among the distinct values of the batch. *)
Theorem label_codes_distinguish (sqrt : Q → Q)
    (is_constant : Q → Q → nat → bool)
    (data : list NetworkWS.connection_data) (features : list feature_row)
    (i j : nat) (ci cj : NetworkWS.connection_data) (fi fj : feature_row) :
  preprocess_data sqrt is_constant data = Some features →
  data !! i = Some ci → data !! j = Some cj →
  features !! i = Some fi → features !! j = Some fj →
  (category fi = category fj ↔ NetworkWS.service ci = NetworkWS.service cj)
  ∧ (subcategory fi = subcategory fj
     ↔ NetworkWS.conn_state ci = NetworkWS.conn_state cj)
  ∧ ∃ k k' : nat,
      category fi = inject_Z (Z.of_nat k)
      ∧ subcategory fi = inject_Z (Z.of_nat k')
      ∧ classes (NetworkWS.service <$> data) !! k
        = Some (NetworkWS.service ci)
      ∧ classes (NetworkWS.conn_state <$> data) !! k'
        = Some (NetworkWS.conn_state ci).
Proof.
  intros H Hci Hcj Hfi Hfj.
  pose proof (preprocess_data_lookup _ _ _ _ _ _ _ H Hci Hfi) as Hi.
  pose proof (preprocess_data_lookup _ _ _ _ _ _ _ H Hcj Hfj) as Hj.
  apply features_of_inv in Hi
    as (k & k' & Hk & Hk' & _ & Hcat & Hsub & _).
  apply features_of_inv in Hj
    as (l & l' & Hl & Hl' & _ & Hcat' & Hsub' & _).
  rewrite Hcat, Hsub, Hcat', Hsub'.
  split; [|split].
  - split.
    + intros [= Hkl]. apply Nat2Z.inj in Hkl. subst l.
      apply index_of_lookup in Hk, Hl. congruence.
    + intros Hs. rewrite Hs in Hk. congruence.
  - split.
    + intros [= Hkl]. apply Nat2Z.inj in Hkl. subst l'.
      apply index_of_lookup in Hk', Hl'. congruence.
    + intros Hs. rewrite Hs in Hk'. congruence.
  - exists k, k'. repeat split; by apply index_of_lookup.
Qed.

Lemma label_codes_distinguish_witness :
  preprocess_data (λ x, x) zero_variance sample_connections
  = Some (default [] (preprocess_data (λ x, x) zero_variance
                        sample_connections))
  ∧ sample_connections !! 0%nat = Some (sample_conn "93.184.216.34" "chrome")
  ∧ sample_connections !! 1%nat = Some (sample_conn "93.184.216.35" "sshd")
  ∧ ∃ fi fj,
      default [] (preprocess_data (λ x, x) zero_variance sample_connections)
        !! 0%nat = Some fi
      ∧ default [] (preprocess_data (λ x, x) zero_variance sample_connections)
          !! 1%nat = Some fj
      ∧ (category fi = category fj ↔ "chrome" = "sshd").
Proof.
  split; [by vm_compute|]. split; [done|]. split; [done|].
  eexists _, _. split; [by vm_compute|]. split; [by vm_compute|].
  refine (proj1 (label_codes_distinguish (λ x, x) zero_variance
                   sample_connections _ 0 1
                   (sample_conn "93.184.216.34" "chrome")
                   (sample_conn "93.184.216.35" "sshd") _ _ _ _ _ _ _)).
  - by vm_compute.
  - reflexivity.
  - reflexivity.
  - by vm_compute.
  - by vm_compute.
Defined.

(** *** The one-hot term *)

Section Shift.

Local Open Scope Q_scope.

Variable k : Q.






End Shift.



(** *** Columns that the collector leaves at zero *)

Section Zeros.

Local Open Scope Q_scope.

Variable sqrt : Q → Q.
Variable is_constant : Q → Q → nat → bool.
Hypothesis is_constant_zero :
  ∀ v m n, v == 0 → is_constant v m n = true.

Lemma row_sum_zeros (l : list Q) :
  Forall (λ x, x == 0) l → row_sum l == 0.
Proof.
  induction 1 as [|x l Hx _ IH]; [done|].
  rewrite row_sum_cons, Hx, IH. ring.
Qed.

Lemma mean_zeros (l : list Q) : Forall (λ x, x == 0) l → mean l == 0.
Proof.
  intros Hl. unfold mean, Qdiv. rewrite (row_sum_zeros l Hl). ring.
Qed.

Lemma var_zeros (l : list Q) : Forall (λ x, x == 0) l → var l == 0.
Proof.
  intros Hl. unfold var. apply mean_zeros, Forall_fmap.
  eapply Forall_impl; [exact Hl|]. intros x Hx. cbn beta in Hx.
  unfold compose. rewrite Hx, (mean_zeros l Hl). ring.
Qed.

Lemma standardize_zeros (l : list Q) (x : Q) :
  Forall (λ x, x == 0) l → x == 0 →
  scale sqrt is_constant l = 1 ∧ standardize sqrt is_constant l x == 0.
Proof.
  intros Hl Hx.
  assert (scale sqrt is_constant l = 1) as Hs.
  { unfold scale. by rewrite is_constant_zero by by apply var_zeros. }
  split; [done|]. unfold standardize. rewrite Hs, Hx, (mean_zeros l Hl).
  unfold Qdiv. ring.
Qed.

End Zeros.

(** X14.  The collector fills in no packet and no byte count, and so these
    two features are 0 in every row made from a batch it returned, the
    scaler dividing a column without spread by 1: the two terms carry no
    weight in the raw score. *)
Theorem collector_counters_carry_no_weight `{L : Ipaddr.Lib}
    (sqrt : Q → Q) (is_constant : Q → Q → nat → bool)
    (t : NetworkWS.ConnectionTracker) (now : Q)
    (raw : list NetworkWS.raw_conn) (features : list feature_row) :
  (∀ v m n, (v == 0)%Q → is_constant v m n = true) →
  preprocess_data sqrt is_constant
    (NetworkWS.get_detailed_connections t now raw).1 = Some features →
  ∀ f, f ∈ features →
    (orig_pkts f == 0)%Q ∧ (orig_bytes f == 0)%Q
    ∧ (raw_score f
       == EventType f * -0.015 + category f * 0.012 + subcategory f * 0.008
          + duration f * 0.007 + row_sum (service_cols f) * 0.003)%Q.
Proof.
  intros Hic H f Hf.
  pose proof (NetworkWSFacts.output_counters t now raw) as Hz.
  destruct (preprocess_data_elem _ _ _ _ _ H Hf) as (c & Hc & Hfc).
  apply features_of_inv in Hfc
    as (? & ? & _ & _ & _ & _ & _ & _ & Hp & Hb & _).
  pose proof (proj1 (Forall_forall _ _) Hz c Hc) as [Hcb Hcp].
  assert (orig_pkts f == 0)%Q as Hp0.
  { rewrite Hp, Hcp. apply standardize_zeros; [done| |done].
    apply Forall_fmap, Forall_forall. intros d Hd. unfold compose.
    by rewrite (proj2 (proj1 (Forall_forall _ _) Hz d Hd)). }
  assert (orig_bytes f == 0)%Q as Hb0.
  { rewrite Hb, Hcb. apply standardize_zeros; [done| |done].
    apply Forall_fmap, Forall_forall. intros d Hd. unfold compose.
    by rewrite (proj1 (proj1 (Forall_forall _ _) Hz d Hd)). }
  split; [done|]. split; [done|].
  unfold raw_score. rewrite Hp0, Hb0.
  change (coefficients "EventType") with (-0.015)%Q.
  change (coefficients "category") with 0.012%Q.
  change (coefficients "subcategory") with 0.008%Q.
  change (coefficients "duration") with 0.007%Q.
  change (coefficients "service") with 0.003%Q. ring.
Qed.

Lemma collector_counters_carry_no_weight_witness :
  (∀ v m n, (v == 0)%Q → zero_variance v m n = true)
  ∧ ∃ f,
      preprocess_data (λ x, x) zero_variance
        (NetworkWS.get_detailed_connections (L := Ipaddr.ipv4)
           NetworkWS.init 0 [NetworkWS.public_https]).1 = Some [f]
      ∧ (orig_pkts f == 0)%Q ∧ (orig_bytes f == 0)%Q.
Proof.
  assert (∀ v m n, (v == 0)%Q → zero_variance v m n = true) as Hz
    by (intros v m n Hv; by apply Qeq_bool_iff).
  split; [exact Hz|]. eexists. split; [by vm_compute|].
  match goal with
  | |- (orig_pkts ?f == 0)%Q ∧ _ =>
      destruct (collector_counters_carry_no_weight (L := Ipaddr.ipv4)
                  (λ x, x) zero_variance NetworkWS.init 0
                  [NetworkWS.public_https] [f] Hz
                  ltac:(by vm_compute) f (list_elem_of_here _ _))
        as (Hp & Hb & _)
  end.
  by split.
Defined.

(** *** The whole batch, from the records to the payload *)

Lemma count_label_pos (lab : string) (rows : list result_row)
    (r : result_row) :
  r ∈ rows → label r = lab → (1 ≤ count_label lab rows)%nat.
Proof.
  intros Hr Hl. unfold count_label.
  assert (In r (List.filter (λ r, String.eqb (label r) lab) rows)) as Hin.
  { apply List.filter_In. split; [by apply list_elem_of_In|].
    by apply String.eqb_eq. }
  destruct (List.filter _ rows); [done|cbn; lia].
Qed.

Lemma label_of_zero (x : Q) : (x == 0)%Q → label_of x = "Benign".
Proof. intros Hx. apply label_of_benign. rewrite Hx. by intros H. Qed.

Lemma rows_have_benign connections (l : list Q) rows :
  l ≠ [] → results connections (normalize l) = Some rows →
  (1 ≤ count_label "Benign" rows)%nat.
Proof.
  intros Hne Hres.
  destruct (normalize_has_zero l Hne) as (i & x & Hi & Hx).
  rewrite <- (results_scores _ _ _ Hres) in Hi.
  apply list_lookup_fmap_Some in Hi as (r & -> & Hr).
  apply (count_label_pos _ _ r); [by eapply list_elem_of_lookup_2|].
  pose proof (results_labels _ _ _ Hres) as Hlab.
  rewrite (proj1 (Forall_forall _ _) Hlab r)
    by by eapply list_elem_of_lookup_2.
  by apply label_of_zero.
Qed.

Lemma batch_rows (sqrt : Q → Q) (is_constant : Q → Q → nat → bool)
    (now_iso : string) (connections : list NetworkWS.connection_data) :
  connections ≠ [] →
  ∃ features rows,
    preprocess_data sqrt is_constant connections = Some features
    ∧ length features = length connections
    ∧ results connections (normalize (raw_score <$> features)) = Some rows
    ∧ process_batch (preprocess_data sqrt is_constant) now_iso connections
      = Some {| vis_timestamp := now_iso;
                vis_summary :=
                  {| avg_score := mean (normalize (raw_score <$> features));
                     max_score :=
                       series_max (normalize (raw_score <$> features));
                     malicious_count := count_label "Malicious" rows;
                     benign_count := count_label "Benign" rows;
                     total_connections :=
                       length (normalize (raw_score <$> features)) |};
                top_anomalies := nlargest 10 rows |}.
Proof.
  intros Hne.
  destruct (preprocess_data_is_Some sqrt is_constant connections Hne)
    as [features H].
  pose proof (preprocess_data_length _ _ _ _ H) as Hlen.
  destruct (process_batch_returns _ now_iso _ _ Hne H Hlen)
    as (rows & Hres & Hv).
  by exists features, rows.
Qed.

(** X15.  Every non-empty batch of collector records is scored, and its
    payload counts at least one benign record: the record with the least
    raw score scores 0.  So not every record of a batch is malicious, and
    a batch of one record has none. *)
Theorem batch_has_a_benign_record (sqrt : Q → Q)
    (is_constant : Q → Q → nat → bool) (now_iso : string)
    (connections : list NetworkWS.connection_data) :
  connections ≠ [] →
  ∃ v,
    process_batch (preprocess_data sqrt is_constant) now_iso connections
    = Some v
    ∧ vis_timestamp v = now_iso
    ∧ total_connections (vis_summary v) = length connections
    ∧ (1 ≤ benign_count (vis_summary v))%nat
    ∧ (malicious_count (vis_summary v) < length connections)%nat
    ∧ (length connections = 1%nat → malicious_count (vis_summary v) = 0%nat).
Proof.
  intros Hne.
  destruct (batch_rows sqrt is_constant now_iso connections Hne)
    as (features & rows & H & Hlen & Hres & Hv).
  eexists. split; [exact Hv|].
  cbn [vis_timestamp vis_summary total_connections benign_count
       malicious_count].
  destruct (results_length _ _ _ Hres) as [Hrows Hconns].
  pose proof (count_label_partition rows (results_labels _ _ _ Hres))
    as Hsum.
  assert (1 ≤ count_label "Benign" rows)%nat as Hb.
  { eapply rows_have_benign; [|exact Hres].
    destruct features; [|done]. by destruct connections. }
  split; [done|]. split; [done|]. split; [done|]. split; lia.
Qed.

Lemma batch_has_a_benign_record_witness :
  sample_connections ≠ []
  ∧ ∃ v,
      process_batch (preprocess_data (λ x, x) zero_variance)
        "2024-05-01T10:00:05" sample_connections = Some v
      ∧ (malicious_count (vis_summary v), benign_count (vis_summary v))
        = (1, 2)%nat
      ∧ (1 ≤ benign_count (vis_summary v))%nat.
Proof.
  split; [done|].
  destruct (batch_has_a_benign_record (λ x, x) zero_variance
              "2024-05-01T10:00:05" sample_connections)
    as (v & Hv & _ & _ & Hb & _); [done|].
  exists v. split; [exact Hv|]. split; [|exact Hb].
  vm_compute in Hv. injection Hv as <-. by vm_compute.
Defined.

Lemma sorted_head_ranks_first (r : result_row) (l : list result_row)
    (x : result_row) :
  StronglySorted ranks_before (r :: l) → x ∈ r :: l → ranks_before r x.
Proof.
  intros Hs Hx. apply StronglySorted_inv in Hs as [_ Hall].
  apply elem_of_cons in Hx as [->|Hx]; [apply Qle_refl|].
  by apply (proj1 (Forall_forall _ _) Hall).
Qed.

Lemma sort_desc_head (rows : list result_row) :
  rows ≠ [] →
  ∃ top, head (sort_desc rows) = Some top
         ∧ top ∈ rows
         ∧ (anomaly_score top == series_max (anomaly_score <$> rows))%Q.
Proof.
  intros Hne. pose proof (sort_desc_perm rows) as Hperm.
  pose proof (sort_desc_sorted rows) as Hsorted.
  destruct (sort_desc rows) as [|top rest] eqn:E.
  { apply Permutation_nil_l in Hperm. by subst. }
  exists top. split; [done|].
  assert (top ∈ rows) as Htop by (rewrite <- Hperm; apply list_elem_of_here).
  split; [done|]. apply Qle_antisym.
  - apply series_max_ge, list_elem_of_fmap. by exists top.
  - destruct rows as [|r0 rows']; [done|].
    pose proof (series_max_elem (anomaly_score r0) (anomaly_score <$> rows'))
      as Hmax.
    change (anomaly_score r0 :: (anomaly_score <$> rows'))
      with (anomaly_score <$> r0 :: rows') in Hmax.
    apply list_elem_of_fmap in Hmax as (r & Hr & Hin). rewrite Hr.
    apply (sorted_head_ranks_first top rest r Hsorted). by rewrite Hperm.
Qed.

(** X16.  The first of the top anomalies is a row with the greatest score
    of the batch: its score is the summary's [max_score], and its label
    tells whether the batch has a malicious row at all. *)
Theorem first_top_anomaly_has_max_score (sqrt : Q → Q)
    (is_constant : Q → Q → nat → bool) (now_iso : string)
    (connections : list NetworkWS.connection_data) :
  connections ≠ [] →
  ∃ v top,
    process_batch (preprocess_data sqrt is_constant) now_iso connections
    = Some v
    ∧ head (top_anomalies v) = Some top
    ∧ (anomaly_score top == max_score (vis_summary v))%Q
    ∧ length (top_anomalies v) = min 10 (length connections)
    ∧ (label top = "Malicious"
       ↔ (1 ≤ malicious_count (vis_summary v))%nat).
Proof.
  intros Hne.
  destruct (batch_rows sqrt is_constant now_iso connections Hne)
    as (features & rows & H & Hlen & Hres & Hv).
  destruct (results_length _ _ _ Hres) as [Hrows Hconns].
  assert (rows ≠ []) as Hrne.
  { intros ->. cbn in Hrows. rewrite <- Hrows in Hconns.
    by destruct connections. }
  destruct (sort_desc_head rows Hrne) as (top & Hhead & Htop & Hmax).
  pose proof (results_labels _ _ _ Hres) as Hlab.
  eexists _, top. split; [exact Hv|].
  cbn [top_anomalies vis_summary max_score malicious_count].
  split; [|split; [|split]].
  - unfold nlargest. by destruct (sort_desc rows).
  - by rewrite <- (results_scores _ _ _ Hres).
  - destruct (nlargest_spec 10 rows) as [-> _]. by rewrite Hrows, Hconns.
  - split.
    + intros Hl. by apply (count_label_pos _ _ top).
    + intros Hm. rewrite (proj1 (Forall_forall _ _) Hlab top Htop).
      apply label_of_malicious.
      unfold count_label in Hm.
      destruct (List.filter _ rows) as [|r l] eqn:E; [cbn in Hm; lia|].
      assert (In r (List.filter (λ r, String.eqb (label r) "Malicious")
                      rows)) as Hin by (rewrite E; by left).
      apply List.filter_In in Hin as [Hin Hr].
      apply String.eqb_eq in Hr. apply list_elem_of_In in Hin.
      rewrite (proj1 (Forall_forall _ _) Hlab r Hin) in Hr.
      apply label_of_malicious in Hr.
      eapply Qle_trans; [exact Hr|]. rewrite Hmax.
      apply series_max_ge, list_elem_of_fmap. by exists r.
Qed.

Lemma first_top_anomaly_has_max_score_witness :
  sample_connections ≠ []
  ∧ ∃ v top,
      process_batch (preprocess_data (λ x, x) zero_variance)
        "2024-05-01T10:00:05" sample_connections = Some v
      ∧ head (top_anomalies v) = Some top
      ∧ source top = "93.184.216.35:51000"
      ∧ (anomaly_score top == max_score (vis_summary v))%Q.
Proof.
  split; [done|].
  destruct (first_top_anomaly_has_max_score (λ x, x) zero_variance
              "2024-05-01T10:00:05" sample_connections)
    as (v & top & Hv & Hhead & Hmax & _); [done|].
  exists v, top. split; [exact Hv|]. split; [exact Hhead|].
  split; [|exact Hmax].
  vm_compute in Hv. injection Hv as <-.
  vm_compute in Hhead. injection Hhead as <-. reflexivity.
Defined.

(** *** The summary's scores *)

Section Average.

Local Open Scope Q_scope.

Lemma row_sum_bounds (l : list Q) (a b : Q) :
  Forall (λ x, a <= x ∧ x <= b) l →
  inject_Z (Z.of_nat (length l)) * a <= row_sum l
  ∧ row_sum l <= inject_Z (Z.of_nat (length l)) * b.
Proof.
  induction 1 as [|x l [Ha Hb] _ [IHa IHb]].
  - change (inject_Z (Z.of_nat (length (@nil Q)))) with 0.
    change (row_sum []) with 0. split; lra.
  - pose proof (row_sum_cons x l) as Hc.
    assert (inject_Z (Z.of_nat (length (x :: l)))
            == inject_Z (Z.of_nat (length l)) + 1) as Hn.
    { cbn [length]. rewrite Nat2Z.inj_succ, <- Z.add_1_r, inject_Z_plus.
      reflexivity. }
    rewrite Hn, Hc. split; lra.
Qed.

Lemma mean_bounds (l : list Q) (a b : Q) :
  l ≠ [] → Forall (λ x, a <= x ∧ x <= b) l → a <= mean l ∧ mean l <= b.
Proof.
  intros Hne Hl. destruct (row_sum_bounds l a b Hl) as [Ha Hb].
  assert (0 < inject_Z (Z.of_nat (length l))) as Hn.
  { change 0 with (inject_Z 0). rewrite <- Zlt_Qlt.
    destruct l; [done|cbn [length]; lia]. }
  unfold mean. split.
  - apply Qle_shift_div_l; [done|]. lra.
  - apply Qle_shift_div_r; [done|]. lra.
Qed.

End Average.

(** X17.  In the summary of a batch the average score lies between 0 and
    the greatest score, and the greatest score is below 1 (the scores and
    their mean being the exact quotients). *)
Theorem summary_scores_are_ordered (sqrt : Q → Q)
    (is_constant : Q → Q → nat → bool) (now_iso : string)
    (connections : list NetworkWS.connection_data) :
  connections ≠ [] →
  ∃ v,
    process_batch (preprocess_data sqrt is_constant) now_iso connections
    = Some v
    ∧ (0 <= avg_score (vis_summary v))%Q
    ∧ (avg_score (vis_summary v) <= max_score (vis_summary v))%Q
    ∧ (max_score (vis_summary v) < 1)%Q.
Proof.
  intros Hne.
  destruct (batch_rows sqrt is_constant now_iso connections Hne)
    as (features & rows & H & Hlen & Hres & Hv).
  eexists. split; [exact Hv|]. cbn [vis_summary avg_score max_score].
  set (raw := raw_score <$> features).
  assert (raw ≠ []) as Hraw.
  { unfold raw. destruct features; [|done]. by destruct connections. }
  assert (normalize raw ≠ []) as Hnorm by by destruct raw.
  destruct (mean_bounds (normalize raw) 0 (series_max (normalize raw)) Hnorm)
    as [Hlo Hhi].
  { apply Forall_forall. intros x Hx. split; [|by apply series_max_ge].
    unfold normalize in Hx. apply list_elem_of_fmap in Hx as (r & -> & Hr).
    by apply normalized_bounds. }
  split; [done|]. split; [done|].
  destruct (normalize raw) as [|x l] eqn:E; [done|].
  pose proof (series_max_elem x l) as Hmax. rewrite <- E in Hmax |- *.
  unfold normalize in Hmax at 2.
  apply list_elem_of_fmap in Hmax as (r & -> & Hr).
  by apply normalized_below_one.
Qed.

Lemma summary_scores_are_ordered_witness :
  sample_connections ≠ []
  ∧ ∃ v,
      process_batch (preprocess_data (λ x, x) zero_variance)
        "2024-05-01T10:00:05" sample_connections = Some v
      ∧ (avg_score (vis_summary v) <= max_score (vis_summary v))%Q
      ∧ (max_score (vis_summary v) < 1)%Q.
Proof.
  split; [done|].
  destruct (summary_scores_are_ordered (λ x, x) zero_variance
              "2024-05-01T10:00:05" sample_connections)
    as (v & Hv & _ & Havg & Hmax); [done|].
  by exists v.
Defined.

(** *** The subscriber set over time *)

(** X18.  [register] then [unregister] of the same websocket returns and
    leaves the set without it; when the websocket was not subscribed
    before, the server is back where it was.  The set holds a websocket
    once: registering it again changes nothing. *)
Theorem register_unregister_round_trip (websocket : client) (σ : state) :
  (unregister websocket (register websocket σ).2).1 = Returned ()
  ∧ connected_clients (unregister websocket (register websocket σ).2).2
    = connected_clients σ ∖ {[websocket]}
  ∧ (websocket ∉ connected_clients σ →
     (unregister websocket (register websocket σ).2).2 = σ)
  ∧ (register websocket (register websocket σ).2).2
    = (register websocket σ).2.
Proof.
  assert (connected_clients (unregister websocket (register websocket σ).2).2
          = connected_clients σ ∖ {[websocket]}) as Hset.
  { unfold unregister, register; cbn [snd connected_clients].
    rewrite decide_True by (apply elem_of_union_l, elem_of_singleton_2;
                              reflexivity).
    cbn [snd connected_clients]. apply set_eq. intros x.
    rewrite !elem_of_difference, elem_of_union, elem_of_singleton. tauto. }
  split; [apply unregister_after_register|]. split; [exact Hset|]. split.
  - intros Hnot. revert Hset. unfold unregister, register.
    cbn [snd connected_clients].
    rewrite decide_True by (apply elem_of_union_l, elem_of_singleton_2;
                              reflexivity).
    cbn [snd connected_clients closed received]. intros ->.
    destruct σ as [cs cl rc]. cbn [connected_clients closed received] in *.
    f_equal. apply set_eq. intros x.
    rewrite elem_of_difference, elem_of_singleton.
    split; [tauto|]. intros Hx. split; [done|]. by intros ->.
  - unfold register; cbn [snd connected_clients closed received]. f_equal.
    apply set_eq. intros x. rewrite !elem_of_union. tauto.
Qed.

Lemma happen_closed (σ : state) (e : event) : closed (happen σ e) = closed σ.
Proof.
  destruct e as [w|w|m]; cbn [happen].
  - done.
  - unfold unregister. by case_decide.
  - by destruct (broadcast_spec m σ) as (_ & _ & ? & _).
Qed.


Lemma foldl_happen_closed (σ : state) (l : list event) :
  closed (foldl happen σ l) = closed σ.
Proof.
  revert σ. induction l as [|e l IH]; intros σ; [done|].
  cbn [foldl]. by rewrite IH, happen_closed.
Qed.



(** X19.  Broadcasts never change the subscriber set: a subscriber whose
    send fails is not dropped; it stays subscribed through any number of
    broadcasts and nothing is delivered to it.  Every other subscriber has
    received all the messages, in the order they were broadcast. *)
Theorem broadcasts_accumulate_in_order (messages : list string) (σ : state)
    (c : client) :
  connected_clients (foldl happen σ (Broadcast <$> messages))
  = connected_clients σ
  ∧ closed (foldl happen σ (Broadcast <$> messages)) = closed σ
  ∧ inbox (foldl happen σ (Broadcast <$> messages)) c
    = if decide (c ∈ connected_clients σ ∧ c ∉ closed σ)
      then (inbox σ c ++ messages)%list
      else inbox σ c.
Proof.
  revert σ. induction messages as [|m messages IH]; intros σ.
  - cbn [fmap list_fmap foldl]. split; [done|]. split; [done|].
    case_decide; [|done]. by rewrite app_nil_r.
  - rewrite fmap_cons. cbn [foldl].
    destruct (IH (happen σ (Broadcast m))) as (-> & -> & ->).
    cbn [happen].
    destruct (broadcast_spec m σ) as (_ & -> & -> & ->).
    split; [done|]. split; [done|].
    case_decide; [|done]. by rewrite <- app_assoc.
Qed.



(** X21.  One decoded message with a non-empty list of collector records
    is scored and relayed: every subscriber whose send succeeds receives
    the serialized payload, once, after what it had received; the others
    and the subscriber set are left as they were.  A message with no
    record is dropped without a broadcast. *)
Theorem relay_delivers_payload (sqrt : Q → Q)
    (is_constant : Q → Q → nat → bool) (dumps : vis_data → string)
    (now_iso : string) (connections : list NetworkWS.connection_data)
    (σ : state) :
  connections ≠ [] →
  relay (preprocess_data sqrt is_constant) dumps now_iso [] σ
  = (Returned (), σ)
  ∧ ∃ v,
      process_batch (preprocess_data sqrt is_constant) now_iso connections
      = Some v
      ∧ connected_clients
          (relay (preprocess_data sqrt is_constant) dumps now_iso
             connections σ).2 = connected_clients σ
      ∧ ∀ c,
          inbox (relay (preprocess_data sqrt is_constant) dumps now_iso
                   connections σ).2 c
          = if decide (c ∈ connected_clients σ ∧ c ∉ closed σ)
            then (inbox σ c ++ [dumps v])%list
            else inbox σ c.
Proof.
  intros Hne. split; [done|].
  destruct (batch_rows sqrt is_constant now_iso connections Hne)
    as (features & rows & _ & _ & _ & Hv).
  eexists. split; [exact Hv|]. unfold relay. rewrite Hv.
  destruct (broadcast_spec (dumps {| vis_timestamp := now_iso;
      vis_summary :=
        {| avg_score := mean (normalize (raw_score <$> features));
           max_score := series_max (normalize (raw_score <$> features));
           malicious_count := count_label "Malicious" rows;
           benign_count := count_label "Benign" rows;
           total_connections :=
             length (normalize (raw_score <$> features)) |};
      top_anomalies := nlargest 10 rows |}) σ) as (_ & Hcs & _ & Hin).
  by split.
Qed.

Lemma relay_delivers_payload_witness :
  sample_connections ≠ []
  ∧ ∃ v,
      process_batch (preprocess_data (λ x, x) zero_variance)
        "2024-05-01T10:00:05" sample_connections = Some v
      ∧ ((λ c, inbox (relay (preprocess_data (λ x, x) zero_variance)
                        (λ v, vis_timestamp v) "2024-05-01T10:00:05"
                        sample_connections three_subscribers).2 c)
           <$> [1%positive; 2%positive; 3%positive; 4%positive])
        = [["2024-05-01T10:00:05"]; []; ["2024-05-01T10:00:05"]; []].
Proof.
  split; [done|].
  destruct (relay_delivers_payload (λ x, x) zero_variance
              (λ v, vis_timestamp v) "2024-05-01T10:00:05"
              sample_connections three_subscribers)
    as (_ & v & Hv & _ & Hin); [done|].
  exists v. split; [exact Hv|].
  cbn [fmap list_fmap]. rewrite !Hin.
  vm_compute in Hv. injection Hv as <-. reflexivity.
Defined.

End ServiceFacts.
